(** * dafi: dynamic filtering, sorting and pagination criteria

    A shallow embedding of package [dafi] (pkg/dafi/filter.go,
    pkg/dafi/pagination.go, pkg/dafi/sort.go and the Criteria aggregate).

    A Go slice is a header (backing array, offset, length, capacity) over a
    shared backing array.  The builder methods of [Filters] write through the
    receiver's header into that array and then call [append], which either
    re-uses the array (spare capacity) or allocates a fresh one.  The
    embedding therefore keeps an explicit store of backing arrays and threads
    it through every builder call in a small state-and-failure monad, where
    failure stands for a Go run-time panic (index out of range). *)

From Stdlib Require Import ZArith NArith Lia.
From stdpp Require Import base option list strings gmap.

Local Open Scope string_scope.
Local Open Scope list_scope.
Local Open Scope nat_scope.
#[local] Set Warnings "-register-all".

(** ** Predicate model (filter.go) *)

Definition FilterField := string.

(** [FilterValue] is Go's [any]: an operand that this layer never inspects.
    [VNil] is the nil interface, the zero value of the field. *)
Inductive FilterValue :=
  | VNil
  | VInt (z : Z)
  | VString (s : string)
  | VBool (b : bool)
  | VList (vs : list FilterValue).

Definition FilterOperator := string.

Module Op.
Definition Equal : FilterOperator := "eq".
Definition NotEqual : FilterOperator := "ne".
Definition Greater : FilterOperator := "gt".
Definition GreaterOrEqual : FilterOperator := "gte".
Definition Less : FilterOperator := "lt".
Definition LessOrEqual : FilterOperator := "lte".
Definition Like : FilterOperator := "like".
Definition In : FilterOperator := "in".
Definition NotIn : FilterOperator := "nin".
Definition Contains : FilterOperator := "contains".
Definition NotContains : FilterOperator := "ncontains".
Definition Is : FilterOperator := "is".
Definition IsNull : FilterOperator := "isnull".
Definition IsNot : FilterOperator := "isn".
Definition IsNotNull : FilterOperator := "isnnull".
Definition Default : FilterOperator := "default".
End Op.

Definition FilterChainingKey := string.

(** The two connectives; the zero value of the type is the empty string. *)
Definition And : FilterChainingKey := "AND".
Definition Or : FilterChainingKey := "OR".

(** [type Filter struct].  [int] fields are read and copied but never
    computed with, so they are plain integers here. *)
Record Filter := mkFilter {
  Module' : string;
  IsGroupOpen : bool;
  GroupOpenQty : Z;
  Field : FilterField;
  Operator : FilterOperator;
  Value : FilterValue;
  IsGroupClose : bool;
  GroupCloseQty : Z;
  ChainingKey : FilterChainingKey;
  OverridePreviousFilterChainingKey : FilterChainingKey
}.

(** The zero value [Filter{}]. *)
Definition Filter_zero : Filter :=
  mkFilter "" false 0 "" "" VNil false 0 "" "".

(** The composite literal [Filter{Field: .., Operator: .., Value: ..}]. *)
Definition Filter_lit (field : string) (operator : FilterOperator)
    (value : FilterValue) : Filter :=
  mkFilter "" false 0 field operator value false 0 "" "".

(** Field assignments [x.ChainingKey = k], [x.IsGroupOpen = b],
    [x.IsGroupClose = b]: the only three writes the package performs. *)
Definition set_ChainingKey (k : FilterChainingKey) (x : Filter) : Filter :=
  mkFilter (Module' x) (IsGroupOpen x) (GroupOpenQty x) (Field x)
    (Operator x) (Value x) (IsGroupClose x) (GroupCloseQty x) k
    (OverridePreviousFilterChainingKey x).

Definition set_IsGroupOpen (b : bool) (x : Filter) : Filter :=
  mkFilter (Module' x) b (GroupOpenQty x) (Field x)
    (Operator x) (Value x) (IsGroupClose x) (GroupCloseQty x)
    (ChainingKey x) (OverridePreviousFilterChainingKey x).

Definition set_IsGroupClose (b : bool) (x : Filter) : Filter :=
  mkFilter (Module' x) (IsGroupOpen x) (GroupOpenQty x) (Field x)
    (Operator x) (Value x) b (GroupCloseQty x)
    (ChainingKey x) (OverridePreviousFilterChainingKey x).

(** ** The store of backing arrays and slice headers *)

(** A backing array has a fixed length; the store only ever grows, and the
    address of an array is its position in the store. *)
Abbreviation heap := (list (list Filter)).

(** [type Filters []Filter]: a slice header.  [data] is the address of the
    backing array and [off] the position of the slice's first element in
    it; both are irrelevant when [cap] is zero (a nil or empty slice). *)
Record Filters := mkFilters {
  data : nat;
  off : nat;
  len : nat;
  cap : nat
}.

(** [Filters{}] and the nil slice: no elements, no capacity. *)
Definition Filters_empty : Filters := mkFilters 0 0 0 0.

(** Computations over the store; [None] is a run-time panic. *)
Definition rt (A : Type) : Type := heap → option (A * heap).

Global Instance rt_ret : MRet rt := λ A x h, Some (x, h).
Global Instance rt_bind : MBind rt := λ A B k m h,
  match m h with
  | Some (x, h') => k x h'
  | None => None
  end.

(** [f[i]] as an r-value: bounds-checked against the length. *)
Definition load (f : Filters) (i : nat) : rt Filter := λ h,
  if bool_decide (i < len f) then
    arr ← h !! data f; x ← arr !! (off f + i); Some (x, h)
  else None.

(** [f[i].field = v]: a write through the header into the backing array. *)
Definition modify (f : Filters) (i : nat) (upd : Filter → Filter) : rt unit :=
  λ h,
  if bool_decide (i < len f) then
    arr ← h !! data f; x ← arr !! (off f + i);
    Some (tt, <[data f := <[off f + i := upd x]> arr]> h)
  else None.

(** The elements [f[0], .., f[len(f)-1]] as currently stored. *)
Definition read (f : Filters) (h : heap) : option (list Filter) :=
  if bool_decide (len f = 0) then Some []
  else
    arr ← h !! data f;
    if bool_decide (off f + len f ≤ length arr)
    then Some (take (len f) (drop (off f) arr))
    else None.

Definition read_all (f : Filters) : rt (list Filter) := λ h,
  xs ← read f h; Some (xs, h).

(** A fresh backing array holding [xs] followed by [extra] zero elements,
    and a header over its first [length xs] elements. *)
Definition alloc (xs : list Filter) (extra : nat) : rt Filters := λ h,
  Some (mkFilters (length h) 0 (length xs) (length xs + extra),
        h ++ [xs ++ replicate extra Filter_zero]).

(** A composite literal [Filters{x1, .., xn}], and the slice a variadic call
    site builds for its arguments: a fresh array of exactly [n] elements. *)
Definition alloc_lit (xs : list Filter) : rt Filters := alloc xs 0.

(** [arr] with the block [xs] copied over positions [i, i + length xs). *)
Definition splice (i : nat) (xs arr : list Filter) : list Filter :=
  take i arr ++ xs ++ drop (i + length xs) arr.

(** Copy [xs] into array [a] from position [i] on. *)
Definition write_block (a i : nat) (xs : list Filter) : rt unit := λ h,
  match xs with
  | [] => Some (tt, h)
  | _ =>
    arr ← h !! a;
    if bool_decide (i + length xs ≤ length arr)
    then Some (tt, <[a := splice i xs arr]> h)
    else None
  end.

Section Builder.

(** How much more than the needed capacity the run time grants when
    [append] has to reallocate (Go's amortised growth and size-class
    rounding); any policy can be written this way, and nothing below
    depends on which one it is. *)
Variable slack : nat → nat → nat.

(** The built-in [append(f, xs...)]: in place when the capacity suffices,
    otherwise into a fresh array holding the old elements and the new. *)
Definition append (f : Filters) (xs : list Filter) : rt Filters :=
  let n := len f + length xs in
  if bool_decide (n ≤ cap f) then
    _ ← write_block (data f) (off f + len f) xs;
    mret (mkFilters (data f) (off f) n (cap f))
  else
    old ← read_all f;
    alloc (old ++ xs) (slack (cap f) n).

(** [func (f Filters) IsZero() bool] *)
Definition Filters_IsZero (f : Filters) : bool := bool_decide (len f = 0).

(** [func FilterBy(name string, operator FilterOperator, value any) Filters] *)
Definition FilterBy (name : string) (operator : FilterOperator)
    (value : FilterValue) : rt Filters :=
  alloc_lit [Filter_lit name operator value].

(** [func (f Filters) Or(field string, operator FilterOperator, value any) Filters] *)
Definition Filters_Or (f : Filters) (field : string)
    (operator : FilterOperator) (value : FilterValue) : rt Filters :=
  if Filters_IsZero f then
    alloc_lit [Filter_lit field operator value]
  else
    _ ← modify f (len f - 1) (set_ChainingKey Or);
    append f [Filter_lit field operator value].

(** [func (f Filters) And(field string, operator FilterOperator, value any) Filters] *)
Definition Filters_And (f : Filters) (field : string)
    (operator : FilterOperator) (value : FilterValue) : rt Filters :=
  if Filters_IsZero f then
    alloc_lit [Filter_lit field operator value]
  else
    _ ← modify f (len f - 1) (set_ChainingKey And);
    append f [Filter_lit field operator value].

(** [func (f Filters) AndGroup(filters ...Filter) Filters]; the variadic
    parameter is itself a slice, written through before it is appended. *)
Definition Filters_AndGroup (f : Filters) (filters : Filters) : rt Filters :=
  if bool_decide (len filters = 0) then mret f
  else
    _ ← (if bool_decide (0 < len f)
         then modify f (len f - 1) (set_ChainingKey And)
         else mret tt);
    _ ← modify filters 0 (set_IsGroupOpen true);
    _ ← modify filters (len filters - 1) (set_IsGroupClose true);
    xs ← read_all filters;
    append f xs.

(** [func (f Filters) OrGroup(filters ...Filter) Filters] *)
Definition Filters_OrGroup (f : Filters) (filters : Filters) : rt Filters :=
  if bool_decide (len filters = 0) then mret f
  else
    _ ← (if bool_decide (0 < len f)
         then modify f (len f - 1) (set_ChainingKey Or)
         else mret tt);
    _ ← modify filters 0 (set_IsGroupOpen true);
    _ ← modify filters (len filters - 1) (set_IsGroupClose true);
    xs ← read_all filters;
    append f xs.

(** The slice a call [f.AndGroup(x1, .., xn)] passes for its arguments:
    nil when there are none, a fresh [n]-element array otherwise. *)
Definition variadic (args : list Filter) : rt Filters :=
  match args with
  | [] => mret Filters_empty
  | _ => alloc_lit args
  end.

(** [f.AndGroup(x1, .., xn)] and [f.OrGroup(x1, .., xn)]. *)
Definition call_AndGroup (f : Filters) (args : list Filter) : rt Filters :=
  filters ← variadic args; Filters_AndGroup f filters.

Definition call_OrGroup (f : Filters) (args : list Filter) : rt Filters :=
  filters ← variadic args; Filters_OrGroup f filters.

(** [And] and [Or] are the same method up to the connective, and so are
    [AndGroup] and [OrGroup]. *)
Definition link (k : FilterChainingKey) (f : Filters) (field : string)
    (operator : FilterOperator) (value : FilterValue) : rt Filters :=
  if Filters_IsZero f then
    alloc_lit [Filter_lit field operator value]
  else
    _ ← modify f (len f - 1) (set_ChainingKey k);
    append f [Filter_lit field operator value].

Definition link_group (k : FilterChainingKey) (f filters : Filters)
    : rt Filters :=
  if bool_decide (len filters = 0) then mret f
  else
    _ ← (if bool_decide (0 < len f)
         then modify f (len f - 1) (set_ChainingKey k)
         else mret tt);
    _ ← modify filters 0 (set_IsGroupOpen true);
    _ ← modify filters (len filters - 1) (set_IsGroupClose true);
    xs ← read_all filters;
    append f xs.

(** The call forms [f.AndGroup(x1, .., xn)] and [f.OrGroup(x1, .., xn)]:
    the argument slice is fresh, so it never shares the receiver's array. *)
Definition call_group (k : FilterChainingKey) (f : Filters)
    (args : list Filter) : rt Filters :=
  filters ← variadic args; link_group k f filters.

End Builder.

(** ** What the builder methods do to the elements

    [set_last k l] is [l] with the chaining key of its last element set to
    [k]; [mark_group xs] is [xs] with its first element flagged group-open
    and its last one group-close.  Both leave the empty list alone. *)

Definition set_last (k : FilterChainingKey) (l : list Filter) : list Filter :=
  alter (set_ChainingKey k) (length l - 1) l.

Definition mark_group (xs : list Filter) : list Filter :=
  alter (set_IsGroupClose true) (length xs - 1)
    (alter (set_IsGroupOpen true) 0 xs).

Definition grouped (k : FilterChainingKey) (l args : list Filter)
    : list Filter :=
  match args with
  | [] => l
  | _ => set_last k l ++ mark_group args
  end.

(** ** Well-formed slice headers

    Go never hands out a header that points outside its backing array; the
    predicate below is that guarantee, stated on the lengths of the arrays
    in the store only. *)

Definition shape (h : heap) : list nat := length <$> h.

Definition wf_slice (h : heap) (f : Filters) : Prop :=
  len f ≤ cap f ∧
  (cap f = 0 ∨
   match shape h !! data f with
   | Some n => off f + cap f ≤ n
   | None => False
   end).

Global Instance wf_slice_dec h f : Decision (wf_slice h f).
Proof. unfold wf_slice. destruct (shape h !! data f); apply _. Defined.

(** ** Properties that every stored element keeps

    A predicate on elements is [builder_closed] when the three field writes
    of the package and its plain literal cannot break it. *)

Definition heap_all (P : Filter → Prop) (h : heap) : Prop :=
  Forall (Forall P) h.

Record builder_closed (P : Filter → Prop) : Prop := {
  closed_lit : ∀ field operator value, P (Filter_lit field operator value);
  closed_key : ∀ k x, P x → P (set_ChainingKey k x);
  closed_open : ∀ b x, P x → P (set_IsGroupOpen b x);
  closed_close : ∀ b x, P x → P (set_IsGroupClose b x)
}.

(** [grows xs h h']: the store [h'] keeps every array of [h] at its address
    and length, and holds nothing but what [h] held, the elements [xs], and
    what the builder writes itself. *)
Definition grows (xs : list Filter) (h h' : heap) : Prop :=
  shape h `prefix_of` shape h' ∧
  ∀ P, builder_closed P → Forall P xs → heap_all P h → heap_all P h'.

(** ** A weakest-precondition reading of [rt]

    [spec m h Q]: run from store [h], the computation [m] does not panic
    and its result and final store satisfy [Q]. *)

Definition spec {A} (m : rt A) (h : heap) (Q : A → heap → Prop) : Prop :=
  ∃ x h', m h = Some (x, h') ∧ Q x h'.

(** ** Builder programs

    "Built exclusively through the builder" is made precise by programs:
    straight-line sequences of assignments [x := FilterBy(..)],
    [x := y.And(..)], [x := y.AndGroup(a1, .., an)], [x := y.AndGroup(g...)]
    and so on over variables of type [Filters].  A program may use the same
    variable as the receiver of several calls (branching from a shared
    base) and may pass a built sequence as the group of another; all the
    sharing this causes happens in the one store.  A variable that was never
    assigned holds the nil slice, as a declared Go variable does. *)

Inductive stmt :=
  | SEmpty (x : string)
  | SFilterBy (x : string) (name : string) (operator : FilterOperator)
      (value : FilterValue)
  | SAnd (x y : string) (field : string) (operator : FilterOperator)
      (value : FilterValue)
  | SOr (x y : string) (field : string) (operator : FilterOperator)
      (value : FilterValue)
  | SAndGroup (x y : string) (args : list Filter)
  | SOrGroup (x y : string) (args : list Filter)
  | SAndGroupOf (x y g : string)
  | SOrGroupOf (x y g : string).

Abbreviation env := (gmap string Filters).

Definition var (e : env) (x : string) : Filters :=
  default Filters_empty (e !! x).

Definition env_wf (e : env) (h : heap) : Prop :=
  ∀ x f, e !! x = Some f → wf_slice h f.

Section Programs.

Variable slack : nat → nat → nat.

Definition exec (s : stmt) (e : env) : rt env :=
  match s with
  | SEmpty x => mret (<[x := Filters_empty]> e)
  | SFilterBy x name operator value =>
      r ← FilterBy name operator value; mret (<[x := r]> e)
  | SAnd x y field operator value =>
      r ← Filters_And slack (var e y) field operator value;
      mret (<[x := r]> e)
  | SOr x y field operator value =>
      r ← Filters_Or slack (var e y) field operator value;
      mret (<[x := r]> e)
  | SAndGroup x y args =>
      r ← call_AndGroup slack (var e y) args; mret (<[x := r]> e)
  | SOrGroup x y args =>
      r ← call_OrGroup slack (var e y) args; mret (<[x := r]> e)
  | SAndGroupOf x y g =>
      r ← Filters_AndGroup slack (var e y) (var e g); mret (<[x := r]> e)
  | SOrGroupOf x y g =>
      r ← Filters_OrGroup slack (var e y) (var e g); mret (<[x := r]> e)
  end.

Fixpoint run (prog : list stmt) (e : env) : rt env :=
  match prog with
  | [] => mret e
  | s :: prog' => e' ← exec s e; run prog' e'
  end.

End Programs.

(** The elements a program supplies itself, as group arguments. *)
Definition supplied (s : stmt) : list Filter :=
  match s with
  | SAndGroup _ _ args | SOrGroup _ _ args => args
  | _ => []
  end.

Definition supplied_by (prog : list stmt) : list Filter :=
  prog ≫= supplied.

(** A single fluent chain [start.m1(..).m2(..)...]: every call's receiver
    is the result of the call before it. *)
Inductive call :=
  | CAnd (field : string) (operator : FilterOperator) (value : FilterValue)
  | COr (field : string) (operator : FilterOperator) (value : FilterValue)
  | CAndGroup (args : list Filter)
  | COrGroup (args : list Filter).

Section Chains.

Variable slack : nat → nat → nat.

Definition invoke (c : call) (f : Filters) : rt Filters :=
  match c with
  | CAnd field operator value => Filters_And slack f field operator value
  | COr field operator value => Filters_Or slack f field operator value
  | CAndGroup args => call_AndGroup slack f args
  | COrGroup args => call_OrGroup slack f args
  end.

Fixpoint chain (cs : list call) (f : Filters) : rt Filters :=
  match cs with
  | [] => mret f
  | c :: cs' => r ← invoke c f; chain cs' r
  end.

End Chains.

(** The elements of the result of one call, from those of its receiver. *)
Definition invoke_elems (c : call) (l : list Filter) : list Filter :=
  match c with
  | CAnd field operator value =>
      set_last And l ++ [Filter_lit field operator value]
  | COr field operator value =>
      set_last Or l ++ [Filter_lit field operator value]
  | CAndGroup args => grouped And l args
  | COrGroup args => grouped Or l args
  end.

Definition chain_elems (cs : list call) (l : list Filter) : list Filter :=
  foldl (λ acc c, invoke_elems c acc) l cs.

Definition call_block (c : call) : list Filter :=
  match c with
  | CAndGroup args | COrGroup args => args
  | _ => []
  end.

(** ** Group balance (the well-formedness a renderer relies on) *)

Definition sum_open (l : list Filter) : Z :=
  foldr (λ x acc, GroupOpenQty x + acc)%Z 0%Z l.

Definition sum_close (l : list Filter) : Z :=
  foldr (λ x acc, GroupCloseQty x + acc)%Z 0%Z l.

(** Opens minus closes over a sequence of tokens. *)
Definition depth (l : list Filter) : Z := (sum_open l - sum_close l)%Z.

(** Totals agree, no prefix closes more than it opened, and the balance is
    back at zero after the last token. *)
Definition group_balanced (l : list Filter) : Prop :=
  sum_open l = sum_close l ∧
  (∀ n, (0 ≤ depth (take n l))%Z) ∧
  depth l = 0%Z.

Definition qty_zero (x : Filter) : Prop :=
  GroupOpenQty x = 0%Z ∧ GroupCloseQty x = 0%Z.

Definition override_unset (x : Filter) : Prop :=
  OverridePreviousFilterChainingKey x = "".

Definition keeps_qty (f : Filter → Filter) : Prop :=
  ∀ x, GroupOpenQty (f x) = GroupOpenQty x ∧
       GroupCloseQty (f x) = GroupCloseQty x.

(** [unmarked x] is [x] without what the builder may have written to it. *)
Definition unmarked (x : Filter) : Filter :=
  mkFilter (Module' x) false (GroupOpenQty x) (Field x) (Operator x)
    (Value x) false (GroupCloseQty x) "" (OverridePreviousFilterChainingKey x).

(** An element that is, up to chaining key and group flags, a plain
    predicate of [And], [Or] or [FilterBy], or one of the elements [xs]. *)
Definition from_supplied (xs : list Filter) (e : Filter) : Prop :=
  (∃ field operator value, unmarked e = Filter_lit field operator value) ∨
  (∃ a, a ∈ xs ∧ unmarked e = unmarked a).

(** How deep in groups each element lies when the flags are read as the
    data model gives them: [IsGroupOpen] opens a group before its element,
    [IsGroupClose] closes one after it. *)
Fixpoint marker_depths (d : nat) (l : list Filter) : list nat :=
  match l with
  | [] => []
  | x :: l' =>
      let d1 := if IsGroupOpen x then S d else d in
      d1 :: marker_depths (if IsGroupClose x then pred d1 else d1) l'
  end.

Definition nesting_depth (l : list Filter) : nat :=
  max_list (marker_depths 0 l).

(** ** The builder does not look at [OverridePreviousFilterChainingKey]

    [forget] blanks the field.  Running any builder call on a store with
    the field blanked everywhere gives the blanked result of running it on
    the original store: the field of no element influences any header, any
    other field of any element, or whether a call panics. *)

Definition forget (x : Filter) : Filter :=
  mkFilter (Module' x) (IsGroupOpen x) (GroupOpenQty x) (Field x)
    (Operator x) (Value x) (IsGroupClose x) (GroupCloseQty x)
    (ChainingKey x) "".

Definition forget_heap (h : heap) : heap :=
  (λ arr : list Filter, forget <$> arr) <$> h.

Definition forget_stmt (s : stmt) : stmt :=
  match s with
  | SAndGroup x y args => SAndGroup x y (forget <$> args)
  | SOrGroup x y args => SOrGroup x y (forget <$> args)
  | _ => s
  end.

(** [commutes ea m m']: [m'] on the blanked store does what [m] does on
    the original one, up to blanking the store and mapping the result
    through [ea]. *)
Definition commutes {A} (ea : A → A) (m m' : rt A) : Prop :=
  ∀ h, m' (forget_heap h)
       = (λ '(x, h'), (ea x, forget_heap h')) <$> m h.

(** ** Pagination (pagination.go) *)

(** [uint] fields; they are only compared with zero. *)
Record Pagination := mkPagination {
  PageNumber : N;
  PageSize : N
}.

Definition Pagination_zero : Pagination := mkPagination 0 0.

Definition Pagination_IsZero (p : Pagination) : bool :=
  (PageNumber p =? 0)%N && (PageSize p =? 0)%N.

Definition Pagination_HasPageNumber (p : Pagination) : bool :=
  (0 <? PageNumber p)%N.

Definition Pagination_HasPageSize (p : Pagination) : bool :=
  (0 <? PageSize p)%N.

(** ** Sorts and the Criteria aggregate (sort.go) *)

Definition SortType := string.
Definition Asc : SortType := "ASC".
Definition Desc : SortType := "DESC".
Definition None' : SortType := "".

Definition SortBy := string.

Record Sort := mkSort {
  Sort_Field : SortBy;
  Sort_Type : SortType
}.

(** [SelectColumns], [Joins] and [Sorts] are kept as the lists of their
    elements: the methods modelled below assign these fields whole and
    never write through them. *)
Record Criteria := mkCriteria {
  SelectColumns : list string;
  Joins : list string;
  Criteria_Filters : Filters;
  FiltersByModule : gmap string Filters;
  Sorts : list Sort;
  Criteria_Pagination : Pagination
}.

(** [func New() Criteria]: the zero value. *)
Definition New : Criteria :=
  mkCriteria [] [] Filters_empty ∅ [] Pagination_zero.

(** [func (c Criteria) Select(columns ...string) Criteria] *)
Definition Criteria_Select (c : Criteria) (columns : list string) : Criteria :=
  mkCriteria columns (Joins c) (Criteria_Filters c) (FiltersByModule c)
    (Sorts c) (Criteria_Pagination c).

(** ** Scenarios *)

(** [base := FilterBy("x", Equal, 1); b1 := base.And("y", Equal, 2);
    b2 := base.Or("z", Equal, 3)] *)
Definition branching (slack : nat → nat → nat)
    : rt (Filters * Filters * Filters) :=
  base ← FilterBy "x" Op.Equal (VInt 1);
  b1 ← Filters_And slack base "y" Op.Equal (VInt 2);
  b2 ← Filters_Or slack base "z" Op.Equal (VInt 3);
  mret (base, b1, b2).

(** A growth policy for [append]: double the capacity when that is enough,
    as the Go run time does for small slices. *)
Definition doubling (c n : nat) : nat := 2 * c - n.

(** [base := FilterBy("x", ..).And("y", ..).And("w", ..)], then
    [b1 := base.And("p", ..)], read before and after [base.Or("q", ..)]. *)
Definition branching_with_room : rt (list Filter * list Filter) :=
  a ← FilterBy "x" Op.Equal (VInt 1);
  b ← Filters_And doubling a "y" Op.Equal (VInt 2);
  base ← Filters_And doubling b "w" Op.Equal (VInt 3);
  b1 ← Filters_And doubling base "p" Op.Equal (VInt 4);
  before ← read_all b1;
  _ ← Filters_Or doubling base "q" Op.Equal (VInt 5);
  after ← read_all b1;
  mret (before, after).

(** [inner := FilterBy("q", ..).And("r", ..)];
    [t := FilterBy("p", ..).AndGroup(inner...).And("s", ..)];
    [outer := Filters{}.AndGroup(t...)]. *)
Definition nested_groups : list stmt :=
  [SFilterBy "inner" "q" Op.Equal (VInt 2);
   SAnd "inner" "inner" "r" Op.Equal (VInt 3);
   SFilterBy "t" "p" Op.Equal (VInt 1);
   SAndGroupOf "t" "t" "inner";
   SAnd "t" "t" "s" Op.Equal (VInt 4);
   SEmpty "outer";
   SAndGroupOf "outer" "outer" "t"].

(** ** The fluent methods of Criteria over the filter sequence (sort.go) *)

(** The assignment [c.Filters = f] on the method's own copy of [c]. *)
Definition with_Filters (c : Criteria) (f : Filters) : Criteria :=
  mkCriteria (SelectColumns c) (Joins c) f (FiltersByModule c) (Sorts c)
    (Criteria_Pagination c).

(** [func Where(field string, operator FilterOperator, value any) Criteria] *)
Definition Where (field : string) (operator : FilterOperator)
    (value : FilterValue) : rt Criteria :=
  f ← FilterBy field operator value;
  mret (mkCriteria [] [] f ∅ [] Pagination_zero).

Section CriteriaBuilder.

Variable slack : nat → nat → nat.

(** [func (c Criteria) AndGroup(filters ...Filter) Criteria]: the variadic
    slice is handed on to [Filters.AndGroup] as it is. *)
Definition Criteria_AndGroup (c : Criteria) (filters : Filters) : rt Criteria :=
  f ← Filters_AndGroup slack (Criteria_Filters c) filters;
  mret (with_Filters c f).

(** [func (c Criteria) OrGroup(filters ...Filter) Criteria] *)
Definition Criteria_OrGroup (c : Criteria) (filters : Filters) : rt Criteria :=
  f ← Filters_OrGroup slack (Criteria_Filters c) filters;
  mret (with_Filters c f).

(** [func (c Criteria) Or(field string, operator FilterOperator, value any) Criteria] *)
Definition Criteria_Or (c : Criteria) (field : string)
    (operator : FilterOperator) (value : FilterValue) : rt Criteria :=
  f ← Filters_Or slack (Criteria_Filters c) field operator value;
  mret (with_Filters c f).

(** [func (c Criteria) And(field string, operator FilterOperator, value any) Criteria] *)
Definition Criteria_And (c : Criteria) (field : string)
    (operator : FilterOperator) (value : FilterValue) : rt Criteria :=
  f ← Filters_And slack (Criteria_Filters c) field operator value;
  mret (with_Filters c f).

(** [c.AndGroup(x1, .., xn)] and [c.OrGroup(x1, .., xn)]. *)
Definition call_Criteria_AndGroup (c : Criteria) (args : list Filter)
    : rt Criteria :=
  filters ← variadic args; Criteria_AndGroup c filters.

Definition call_Criteria_OrGroup (c : Criteria) (args : list Filter)
    : rt Criteria :=
  filters ← variadic args; Criteria_OrGroup c filters.

End CriteriaBuilder.

(** [func (c Criteria) Limit(value uint) Criteria] *)
Definition Criteria_Limit (c : Criteria) (value : N) : Criteria :=
  mkCriteria (SelectColumns c) (Joins c) (Criteria_Filters c)
    (FiltersByModule c) (Sorts c)
    (mkPagination (PageNumber (Criteria_Pagination c)) value).

(** [func (c Criteria) Page(value uint) Criteria] *)
Definition Criteria_Page (c : Criteria) (value : N) : Criteria :=
  mkCriteria (SelectColumns c) (Joins c) (Criteria_Filters c)
    (FiltersByModule c) (Sorts c)
    (mkPagination value (PageSize (Criteria_Pagination c))).

(** One call of a fluent chain on a Criteria value. *)
Inductive fluent :=
  | FAnd (field : string) (operator : FilterOperator) (value : FilterValue)
  | FOr (field : string) (operator : FilterOperator) (value : FilterValue)
  | FAndGroup (args : list Filter)
  | FOrGroup (args : list Filter)
  | FLimit (value : N)
  | FPage (value : N)
  | FSelect (columns : list string).

Section Fluent.

Variable slack : nat → nat → nat.

Definition fluent_call (m : fluent) (c : Criteria) : rt Criteria :=
  match m with
  | FAnd field operator value => Criteria_And slack c field operator value
  | FOr field operator value => Criteria_Or slack c field operator value
  | FAndGroup args => call_Criteria_AndGroup slack c args
  | FOrGroup args => call_Criteria_OrGroup slack c args
  | FLimit value => mret (Criteria_Limit c value)
  | FPage value => mret (Criteria_Page c value)
  | FSelect columns => mret (Criteria_Select c columns)
  end.

Fixpoint fluently (ms : list fluent) (c : Criteria) : rt Criteria :=
  match ms with
  | [] => mret c
  | m :: ms' => c' ← fluent_call m c; fluently ms' c'
  end.

End Fluent.

(** The calls of a fluent chain that reach the filter sequence. *)
Definition filter_calls (ms : list fluent) : list call :=
  ms ≫= λ m,
    match m with
    | FAnd field operator value => [CAnd field operator value]
    | FOr field operator value => [COr field operator value]
    | FAndGroup args => [CAndGroup args]
    | FOrGroup args => [COrGroup args]
    | _ => []
    end.

(** What the other calls of a chain leave in the fields they assign. *)
Definition other_calls (ms : list fluent) (c : Criteria) : Criteria :=
  foldl (λ acc m,
           match m with
           | FLimit value => Criteria_Limit acc value
           | FPage value => Criteria_Page acc value
           | FSelect columns => Criteria_Select acc columns
           | _ => acc
           end) c ms.

(** [b1 := f.And(..); b2 := f.Or(..)] from one receiver. *)
Definition branch (slack : nat → nat → nat) (f : Filters)
    (field1 : string) (operator1 : FilterOperator) (value1 : FilterValue)
    (field2 : string) (operator2 : FilterOperator) (value2 : FilterValue)
    : rt (Filters * Filters) :=
  b1 ← Filters_And slack f field1 operator1 value1;
  b2 ← Filters_Or slack f field2 operator2 value2;
  mret (b1, b2).

(** The connective a call stores on the element before the ones it adds. *)
Definition connective (c : call) : FilterChainingKey :=
  match c with
  | CAnd _ _ _ | CAndGroup _ => And
  | COr _ _ _ | COrGroup _ => Or
  end.

Definition is_single (c : call) : bool :=
  match c with
  | CAnd _ _ _ | COr _ _ _ => true
  | _ => false
  end.

(** The elements a call adds, as the caller wrote them. *)
Definition call_items (c : call) : list Filter :=
  match c with
  | CAnd field operator value | COr field operator value =>
      [Filter_lit field operator value]
  | CAndGroup args | COrGroup args => args
  end.

(** ** Generic lists (package types) *)

Section List.

Context {T : Type}.

(** [*new(T)], the zero value of the element type. *)
Variable zero : T.

(** [type ListIterator[T any] = func(k int, v T) bool]; the index is the
    position in the list, so it is a natural number here. *)
Definition ListIterator : Type := nat → T → bool.

(** [func (l List[T]) IsEmpty() bool] *)
Definition List_IsEmpty (l : list T) : bool := bool_decide (length l = 0).

(** The loop of [Filter]: [res] is the slice built so far, [k] the index
    of the next element.  [res] is made with room for all of [l], so the
    appends never reallocate and [l] itself is only read. *)
Fixpoint Filter_loop (iter : ListIterator) (k : nat) (res l : list T)
    : list T :=
  match l with
  | [] => res
  | v :: l' =>
      Filter_loop iter (S k) (if iter k v then res ++ [v] else res) l'
  end.

(** [func (l List[T]) Filter(iter ListIterator[T]) []T] *)
Definition List_Filter (l : list T) (iter : ListIterator) : list T :=
  Filter_loop iter 0 [] l.

Fixpoint Find_loop (iter : ListIterator) (k : nat) (l : list T) : T * bool :=
  match l with
  | [] => (zero, false)
  | v :: l' => if iter k v then (v, true) else Find_loop iter (S k) l'
  end.

(** [func (l List[T]) Find(iter ListIterator[T]) (T, bool)] *)
Definition List_Find (l : list T) (iter : ListIterator) : T * bool :=
  Find_loop iter 0 l.

Fixpoint MustFind_loop (iter : ListIterator) (k : nat) (l : list T) : T :=
  match l with
  | [] => zero
  | v :: l' => if iter k v then v else MustFind_loop iter (S k) l'
  end.

(** [func (l List[T]) MustFind(iter ListIterator[T]) T] *)
Definition List_MustFind (l : list T) (iter : ListIterator) : T :=
  MustFind_loop iter 0 l.

End List.

(** ** The application environment (package di, container.go) *)

(** [os.Getenv]: the value of the variable, empty when it is not set. *)
Definition Getenv (environ : gmap string string) (key : string) : string :=
  default "" (environ !! key).

(** [func GetEnvironment() string] *)
Definition GetEnvironment (environ : gmap string string) : string :=
  let env := Getenv environ "APP_ENV" in
  if String.eqb env "" then "development" else env.

(** [func IsProduction() bool] *)
Definition IsProduction (environ : gmap string string) : bool :=
  String.eqb (GetEnvironment environ) "production".

(** [func IsDevelopment() bool] *)
Definition IsDevelopment (environ : gmap string string) : bool :=
  String.eqb (GetEnvironment environ) "development".

(** ** JSON-backed database values (package types, Object) *)

(** What [database/sql] hands to [Scan]: a value of one of the types of
    [driver.Value] ([float64] by its IEEE 754 bits, [time.Time] by its
    nanoseconds since the epoch). *)
Inductive driver_value :=
  | DNil
  | DInt64 (z : Z)
  | DFloat64 (bits : Z)
  | DBool (b : bool)
  | DBytes (b : list Byte.byte)
  | DString (s : string)
  | DTime (unix_nanoseconds : Z).

Section Object.

(** The wrapped type, and the errors of [encoding/json]. *)
Context {T E : Type}.

(** [json.Marshal(v)], and [json.Unmarshal(bytes, &dst)], which writes into
    a destination that already holds a value and may fail.  Both belong to
    the Go library and are taken as they come. *)
Variable json_Marshal : T → E + list Byte.byte.
Variable json_Unmarshal : list Byte.byte → T → T * option E.

(** [oops.Wrapf(err, msg)] and [oops.Errorf(msg, value)]. *)
Inductive oops_error :=
  | Wrapf (cause : E) (message : string)
  | Errorf (message : string) (value : driver_value).

(** [type Object[T any] struct { data T }] *)
Record Object := mkObject { Object_data : T }.

(** [func NewObject[T any](data T) Object[T]] *)
Definition NewObject (d : T) : Object := mkObject d.

(** [func (op *Object[T]) Data() T] *)
Definition Object_Data (op : Object) : T := Object_data op.

(** [func (op Object[T]) Value() (driver.Value, error)] *)
Definition Object_Value (op : Object) : oops_error + list Byte.byte :=
  match json_Marshal (Object_data op) with
  | inl err => inl (Wrapf err "failed to marshal Object data")
  | inr bytes => inr bytes
  end.

(** [func (op *Object[T]) Scan(value any) error]: the object after the
    call, and the error if any. *)
Definition Object_Scan (op : Object) (value : driver_value)
    : Object * option oops_error :=
  match
    match value with
    | DBytes v => Some v
    | DString v => Some (String.list_byte_of_string v)
    | _ => None
    end
  with
  | None => (op, Some (Errorf "failed to unmarshal JSONB value: %v" value))
  | Some bytes =>
      match json_Unmarshal bytes (Object_data op) with
      | (d, Some err) =>
          (mkObject d, Some (Wrapf err "failed to unmarshal Object data"))
      | (d, None) => (mkObject d, None)
      end
  end.

(** [func (op Object[T]) MarshalJSON() ([]byte, error)] *)
Definition Object_MarshalJSON (op : Object) : oops_error + list Byte.byte :=
  match json_Marshal (Object_data op) with
  | inl err => inl (Wrapf err "failed to marshal Object data")
  | inr bytes => inr bytes
  end.

(** [func (op *Object[T]) UnmarshalJSON(b []byte) error] *)
Definition Object_UnmarshalJSON (op : Object) (b : list Byte.byte)
    : Object * option oops_error :=
  match json_Unmarshal b (Object_data op) with
  | (d, Some err) =>
      (mkObject d, Some (Wrapf err "failed to unmarshal Object data"))
  | (d, None) => (mkObject d, None)
  end.

End Object.

(** * Properties *)

Lemma shape_lookup (h : heap) (a : nat) : shape h !! a = length <$> (h !! a).
Proof. unfold shape. apply list_lookup_fmap. Qed.

Lemma wf_slice_array h f :
  wf_slice h f → 0 < cap f →
  ∃ arr, h !! data f = Some arr ∧ off f + cap f ≤ length arr.
Proof.
  intros [_ [Hc | Hs]] Hpos; [lia |].
  rewrite shape_lookup in Hs.
  destruct (h !! data f) as [arr |]; simpl in Hs; [eauto | done].
Qed.

Lemma wf_slice_mono h h' f :
  shape h `prefix_of` shape h' → wf_slice h f → wf_slice h' f.
Proof.
  intros Hpre [Hlen [Hc | Hs]]; split; auto. right.
  destruct (shape h !! data f) as [n |] eqn:E; [| done].
  by rewrite (prefix_lookup_Some _ _ _ _ E Hpre).
Qed.

Lemma wf_slice_empty h f : cap f = 0 → len f = 0 → wf_slice h f.
Proof. intros Hc Hl. split; [lia | by left]. Qed.

Lemma shape_alter (g : list Filter → list Filter) a h :
  (∀ arr, h !! a = Some arr → length (g arr) = length arr) →
  shape (alter g a h) = shape h.
Proof.
  intros Hg. apply list_eq. intros b. rewrite !shape_lookup.
  rewrite list_lookup_alter. case_decide as E; [subst b | done].
  destruct (h !! a) as [arr |] eqn:Ha; [| done].
  simpl. f_equal. auto.
Qed.

(** *** Reading and writing through a well-formed header *)

Lemma read_length f h l : read f h = Some l → length l = len f.
Proof.
  unfold read. case_bool_decide as Hz; [intros [= <-]; simpl; lia |].
  destruct (h !! data f) as [arr |]; simpl; [| done].
  case_bool_decide; [| done]. intros [= <-].
  rewrite length_take, length_drop. lia.
Qed.

Lemma read_wf h f : wf_slice h f → ∃ l, read f h = Some l.
Proof.
  intros Hwf. unfold read. case_bool_decide as Hz; [eauto |].
  destruct (wf_slice_array h f Hwf) as (arr & -> & Hle);
    [destruct Hwf; lia |].
  simpl. destruct Hwf. rewrite bool_decide_true by lia. eauto.
Qed.

Lemma read_array h f arr :
  h !! data f = Some arr → off f + len f ≤ length arr →
  read f h = Some (take (len f) (drop (off f) arr)).
Proof.
  intros Ha Hle. unfold read. rewrite Ha. simpl.
  case_bool_decide as Hz; [by rewrite Hz |].
  by rewrite bool_decide_true.
Qed.

Lemma modify_alter h f i upd :
  wf_slice h f → i < len f →
  modify f i upd h = Some (tt, alter (alter upd (off f + i)) (data f) h).
Proof.
  intros Hwf Hi. unfold modify. rewrite bool_decide_true by done.
  destruct (wf_slice_array h f Hwf) as (arr & Ha & Hle);
    [destruct Hwf; lia |].
  rewrite Ha. simpl.
  destruct (lookup_lt_is_Some_2 arr (off f + i)) as [x Hx];
    [destruct Hwf; lia |].
  rewrite Hx. simpl. do 2 f_equal.
  apply list_eq. intros a. rewrite list_lookup_alter.
  case_decide as Ea.
  - subst a. rewrite list_lookup_insert_eq by (by eapply lookup_lt_Some).
    rewrite Ha. simpl. f_equal.
    apply list_eq. intros j. rewrite list_lookup_alter.
    case_decide as Ej.
    + subst j. rewrite list_lookup_insert_eq by (by eapply lookup_lt_Some).
      by rewrite Hx.
    + by rewrite list_lookup_insert_ne.
  - by rewrite list_lookup_insert_ne.
Qed.

Lemma shape_modify h a j (upd : Filter → Filter) :
  shape (alter (alter upd j) a h) = shape h.
Proof. apply shape_alter. intros arr _. apply length_alter. Qed.

Lemma read_alter_same h f i upd l :
  wf_slice h f → i < len f → read f h = Some l →
  read f (alter (alter upd (off f + i)) (data f) h) = Some (alter upd i l).
Proof.
  intros Hwf Hi Hr.
  destruct (wf_slice_array h f Hwf) as (arr & Ha & Hle);
    [destruct Hwf; lia |].
  destruct Hwf as [Hlc _].
  rewrite (read_array h f arr) in Hr by (done || lia).
  injection Hr as <-.
  rewrite (read_array _ f (alter upd (off f + i) arr)).
  - f_equal. rewrite drop_alter_ge by lia. rewrite take_alter_lt by lia.
    f_equal. lia.
  - by rewrite list_lookup_alter_eq, Ha.
  - rewrite length_alter. lia.
Qed.

Lemma read_frame f h h' :
  (0 < len f → h' !! data f = h !! data f) → read f h' = read f h.
Proof.
  intros E. unfold read. case_bool_decide; [done |].
  rewrite E by lia. done.
Qed.

Lemma read_alter_other f h (g : list Filter → list Filter) a :
  (0 < len f → a ≠ data f) → read f (alter g a h) = read f h.
Proof.
  intros Hne. apply read_frame. intros Hpos.
  apply list_lookup_alter_ne. auto.
Qed.

Lemma read_alter_proj {B} (π : Filter → B) (upd : Filter → Filter) f h j a :
  (∀ x, π (upd x) = π x) →
  (λ l : list Filter, π <$> l) <$> read f (alter (alter upd j) a h)
  = (λ l : list Filter, π <$> l) <$> read f h.
Proof.
  intros Hπ. unfold read. case_bool_decide; [done |].
  rewrite list_lookup_alter. case_decide as E; [subst a | done].
  destruct (h !! data f) as [arr |]; simpl; [| done].
  rewrite length_alter. case_bool_decide; [| done]. simpl. f_equal.
  rewrite !fmap_take, !fmap_drop. do 2 f_equal.
  rewrite (list_fmap_alter π upd id); [by apply list_alter_id |].
  by apply Forall_true.
Qed.

Lemma length_splice i xs arr :
  i + length xs ≤ length arr → length (splice i xs arr) = length arr.
Proof.
  intros Hle. unfold splice.
  rewrite !length_app, length_take, length_drop. lia.
Qed.

Lemma write_block_alter h a i xs arr :
  h !! a = Some arr → i + length xs ≤ length arr →
  write_block a i xs h = Some (tt, alter (splice i xs) a h).
Proof.
  intros Ha Hle.
  assert (<[a:=splice i xs arr]> h = alter (splice i xs) a h) as E.
  { apply list_eq. intros b. rewrite list_lookup_alter.
    case_decide as Eb.
    - subst b. rewrite list_lookup_insert_eq by (by eapply lookup_lt_Some).
      by rewrite Ha.
    - by rewrite list_lookup_insert_ne. }
  unfold write_block. destruct xs as [| x xs'].
  - do 2 f_equal. rewrite <- E. unfold splice. simpl.
    rewrite Nat.add_0_r, take_drop. symmetry. by apply list_insert_id.
  - rewrite Ha. simpl. rewrite bool_decide_true by done. by rewrite E.
Qed.

Lemma shape_snoc (h : heap) (arr : list Filter) :
  shape h `prefix_of` shape (h ++ [arr]).
Proof. unfold shape. rewrite fmap_app. by apply prefix_app_r. Qed.

Lemma closed_zero P : builder_closed P → P Filter_zero.
Proof. intros HP. apply (closed_lit P HP "" "" VNil). Qed.

Lemma grows_refl xs h : grows xs h h.
Proof. split; [done | auto]. Qed.

Lemma grows_trans xs h1 h2 h3 : grows xs h1 h2 → grows xs h2 h3 → grows xs h1 h3.
Proof.
  intros [S1 I1] [S2 I2]. split; [by etrans | eauto].
Qed.

Lemma grows_weaken xs ys h h' : xs ⊆ ys → grows xs h h' → grows ys h h'.
Proof.
  intros Hsub [S I]. split; [done |]. intros P HP Hys. apply I; [done |].
  rewrite Forall_forall in *. auto.
Qed.

Lemma heap_all_read P h f l : heap_all P h → read f h = Some l → Forall P l.
Proof.
  intros Hall. unfold read. case_bool_decide; [by intros [= <-] |].
  destruct (h !! data f) as [arr |] eqn:Ha; simpl; [| done].
  case_bool_decide; [| done]. intros [= <-].
  apply Forall_take, Forall_drop.
  by eapply (Forall_lookup_1 _ h).
Qed.

Lemma grows_key xs h a j k :
  grows xs h (alter (alter (set_ChainingKey k) j) a h).
Proof.
  split; [by rewrite shape_modify |].
  intros P HP _ Hall. apply Forall_alter; [done |]. intros arr _ Harr.
  apply Forall_alter; [done |]. intros x _. apply (closed_key P HP).
Qed.

Lemma grows_open xs h a j b :
  grows xs h (alter (alter (set_IsGroupOpen b) j) a h).
Proof.
  split; [by rewrite shape_modify |].
  intros P HP _ Hall. apply Forall_alter; [done |]. intros arr _ Harr.
  apply Forall_alter; [done |]. intros x _. apply (closed_open P HP).
Qed.

Lemma grows_close xs h a j b :
  grows xs h (alter (alter (set_IsGroupClose b) j) a h).
Proof.
  split; [by rewrite shape_modify |].
  intros P HP _ Hall. apply Forall_alter; [done |]. intros arr _ Harr.
  apply Forall_alter; [done |]. intros x _. apply (closed_close P HP).
Qed.

Lemma grows_splice xs h a i arr :
  h !! a = Some arr → i + length xs ≤ length arr →
  grows xs h (alter (splice i xs) a h).
Proof.
  intros Ha Hle. split.
  - rewrite shape_alter; [done |]. intros arr' Ha'.
    apply length_splice. congruence.
  - intros P HP Hxs Hall. apply Forall_alter; [done |]. intros arr' _ Harr.
    unfold splice. rewrite !Forall_app. split_and!; [| done |].
    + by apply Forall_take.
    + by apply Forall_drop.
Qed.

Lemma grows_alloc xs ys extra h :
  (∀ P, builder_closed P → Forall P xs → heap_all P h → Forall P ys) →
  grows xs h (h ++ [ys ++ replicate extra Filter_zero]).
Proof.
  intros Hys. split; [apply shape_snoc |].
  intros P HP Hxs Hall. apply Forall_app. split; [done |].
  apply Forall_singleton, Forall_app. split; [by apply Hys |].
  apply Forall_replicate. by apply closed_zero.
Qed.

Lemma spec_ret {A} (x : A) h (Q : A → heap → Prop) : Q x h → spec (mret x) h Q.
Proof. intros HQ. by exists x, h. Qed.

Lemma spec_bind {A B} (m : rt A) (k : A → rt B) h (Q : B → heap → Prop) :
  spec m h (λ x h', spec (k x) h' Q) → spec (m ≫= k) h Q.
Proof.
  intros (x & h' & Hm & (y & h'' & Hk & HQ)).
  exists y, h''. split; [| done].
  unfold mbind, rt_bind. by rewrite Hm.
Qed.

Lemma spec_mono {A} (m : rt A) h (Q Q' : A → heap → Prop) :
  (∀ x h', Q x h' → Q' x h') → spec m h Q → spec m h Q'.
Proof. intros HQ (x & h' & Hm & Hx). exists x, h'. auto. Qed.

Lemma spec_modify f i upd h (Q : unit → heap → Prop) :
  wf_slice h f → i < len f →
  Q tt (alter (alter upd (off f + i)) (data f) h) →
  spec (modify f i upd) h Q.
Proof.
  intros Hwf Hi HQ. exists tt. eexists. split; [| exact HQ].
  by apply modify_alter.
Qed.

Lemma spec_read_all f h l (Q : list Filter → heap → Prop) :
  read f h = Some l → Q l h → spec (read_all f) h Q.
Proof.
  intros Hr HQ. exists l, h. split; [| done].
  unfold read_all. by rewrite Hr.
Qed.

Lemma wf_slice_alloc h xs extra :
  wf_slice (h ++ [xs ++ replicate extra Filter_zero])
    (mkFilters (length h) 0 (length xs) (length xs + extra)).
Proof.
  split; simpl; [lia |]. right.
  rewrite shape_lookup, lookup_app_r by lia.
  rewrite Nat.sub_diag. simpl.
  rewrite length_app, length_replicate. lia.
Qed.

Lemma read_alloc h xs extra :
  read (mkFilters (length h) 0 (length xs) (length xs + extra))
    (h ++ [xs ++ replicate extra Filter_zero]) = Some xs.
Proof.
  unfold read. simpl. case_bool_decide as Hz.
  - by destruct xs.
  - rewrite lookup_app_r by lia. rewrite Nat.sub_diag. simpl.
    rewrite bool_decide_true by (rewrite length_app; lia).
    rewrite drop_0. by rewrite take_app_length.
Qed.

Lemma spec_alloc xs extra h (Q : Filters → heap → Prop) :
  Q (mkFilters (length h) 0 (length xs) (length xs + extra))
    (h ++ [xs ++ replicate extra Filter_zero]) →
  spec (alloc xs extra) h Q.
Proof. intros HQ. eexists _, _. split; [reflexivity | exact HQ]. Qed.

Lemma splice_window o n xs arr :
  o + n + length xs ≤ length arr →
  take (n + length xs) (drop o (splice (o + n) xs arr))
  = take n (drop o arr) ++ xs.
Proof.
  intros Hle. unfold splice.
  rewrite drop_app_le by (rewrite length_take; lia).
  rewrite <- take_drop_commute.
  rewrite app_assoc. rewrite take_app_length'; [done |].
  rewrite length_app, length_take, length_drop. lia.
Qed.

(** *** [append] *)

Lemma spec_append slack f xs h l (Q : Filters → heap → Prop) :
  wf_slice h f → read f h = Some l →
  (∀ r h',
     read r h' = Some (l ++ xs) → wf_slice h' r →
     len r = len f + length xs → grows xs h h' →
     Q r h') →
  spec (append slack f xs) h Q.
Proof.
  intros Hwf Hr HQ. pose proof (read_length _ _ _ Hr) as Hl.
  unfold append. case_bool_decide as Hfit.
  - (* enough capacity: the block is written behind the last element *)
    apply spec_bind.
    destruct (decide (cap f = 0)) as [Hc0 | Hc0].
    + assert (len f = 0) by (destruct Hwf; lia).
      assert (xs = []) as -> by (apply length_zero_iff_nil; lia).
      exists tt, h. split; [done |]. apply spec_ret. apply HQ.
      * unfold read. simpl. rewrite bool_decide_true by lia.
        destruct l; [done | simpl in Hl; lia].
      * apply wf_slice_empty; simpl; lia.
      * simpl. lia.
      * apply grows_refl.
    + destruct (wf_slice_array h f Hwf) as (arr & Ha & Hle); [lia |].
      exists tt. eexists. split.
      { apply (write_block_alter h _ _ xs arr Ha). lia. }
      apply spec_ret.
      assert (grows xs h (alter (splice (off f + len f) xs) (data f) h)) as Hg.
      { apply (grows_splice xs h _ _ arr Ha). lia. }
      apply HQ; [| | done | done].
      * rewrite (read_array _ _ (splice (off f + len f) xs arr)); simpl.
        -- f_equal. rewrite (read_array h f arr) in Hr by (done || lia).
           injection Hr as <-. apply splice_window. lia.
        -- by rewrite list_lookup_alter_eq, Ha.
        -- rewrite length_splice; lia.
      * eapply wf_slice_mono; [apply Hg |].
        destruct Hwf as [? Hw]. split; simpl; [lia |]. done.
  - (* reallocation: old elements, then the block, then zeroed spare room *)
    apply spec_bind, (spec_read_all f h l); [done |].
    apply spec_alloc. apply HQ.
    + apply read_alloc.
    + apply wf_slice_alloc.
    + simpl. rewrite length_app. lia.
    + apply grows_alloc. intros P HP Hxs Hall.
      apply Forall_app. split; [| done]. by eapply heap_all_read.
Qed.

Lemma grows_lit field operator value h h' :
  grows [Filter_lit field operator value] h h' → grows [] h h'.
Proof.
  intros [S I]. split; [done |]. intros P HP _. apply I; [done |].
  apply Forall_singleton, (closed_lit P HP).
Qed.

Lemma grows_read g h xs h' : read g h = Some xs → grows xs h h' → grows [] h h'.
Proof.
  intros Hr [S I]. split; [done |]. intros P HP _ Hall. apply I; [done | | done].
  by eapply heap_all_read.
Qed.

Lemma grows_nil xs h h' : grows [] h h' → grows xs h h'.
Proof. apply grows_weaken. apply list_subseteq_nil. Qed.

Section BuilderSpecs.

Variable slack : nat → nat → nat.

Lemma Filters_And_link : Filters_And slack = link slack And.
Proof. reflexivity. Qed.
Lemma Filters_Or_link : Filters_Or slack = link slack Or.
Proof. reflexivity. Qed.
Lemma Filters_AndGroup_link : Filters_AndGroup slack = link_group slack And.
Proof. reflexivity. Qed.
Lemma Filters_OrGroup_link : Filters_OrGroup slack = link_group slack Or.
Proof. reflexivity. Qed.

Lemma spec_alloc_lit xs h (Q : Filters → heap → Prop) :
  (∀ r h', read r h' = Some xs → wf_slice h' r → len r = length xs →
           cap r = length xs → grows xs h h' → Q r h') →
  spec (alloc_lit xs) h Q.
Proof.
  intros HQ. apply spec_alloc. apply HQ.
  - apply read_alloc.
  - apply wf_slice_alloc.
  - done.
  - simpl. lia.
  - apply grows_alloc. auto.
Qed.

Lemma spec_FilterBy name operator value h (Q : Filters → heap → Prop) :
  (∀ r h', read r h' = Some [Filter_lit name operator value] →
           wf_slice h' r → len r = 1 → cap r = 1 → grows [] h h' → Q r h') →
  spec (FilterBy name operator value) h Q.
Proof.
  intros HQ. apply spec_alloc_lit. intros r h' Hr Hwf Hl Hc Hg.
  apply HQ; try done. by eapply grows_lit.
Qed.

Lemma spec_link k f field operator value h l (Q : Filters → heap → Prop) :
  wf_slice h f → read f h = Some l →
  (∀ r h',
     read r h' = Some (set_last k l ++ [Filter_lit field operator value]) →
     wf_slice h' r → len r = len f + 1 → grows [] h h' → Q r h') →
  spec (link slack k f field operator value) h Q.
Proof.
  intros Hwf Hr HQ. pose proof (read_length _ _ _ Hr) as Hl.
  unfold link, Filters_IsZero. case_bool_decide as Hz.
  - apply spec_alloc_lit. intros r h' Hr' Hwf' Hl' _ Hg.
    destruct l; [| simpl in Hl; lia].
    apply HQ; try done; [simpl in *; lia | by eapply grows_lit].
  - apply spec_bind, spec_modify; [done | lia |].
    set (h1 := alter _ _ h).
    assert (grows [] h h1) as Hg1 by apply grows_key.
    eapply (spec_append slack f _ h1 (set_last k l)).
    + eapply wf_slice_mono; [apply Hg1 | done].
    + unfold set_last. rewrite Hl. by apply read_alter_same; [| lia |].
    + intros r h' Hr' Hwf' Hl' Hg'. apply HQ; try done.
      eapply grows_trans; [exact Hg1 |]. by eapply grows_lit.
Qed.

(** The group methods on any two well-formed headers; when the argument
    slice does not share the receiver's array, the elements of the result
    are known exactly. *)
Lemma spec_link_group k f g h l xs (Q : Filters → heap → Prop) :
  wf_slice h f → wf_slice h g →
  read f h = Some l → read g h = Some xs → 0 < len g →
  (∀ r h',
     wf_slice h' r → len r = len f + len g → grows [] h h' →
     (0 < len f → data g ≠ data f →
      read r h' = Some (set_last k l ++ mark_group xs)) →
     (len f = 0 → read r h' = Some (mark_group xs)) →
     (∃ l' xs',
        read r h' = Some (l' ++ mark_group xs') ∧
        length l' = len f ∧ length xs' = len g ∧
        ChainingKey <$> l' = ChainingKey <$> set_last k l) →
     Q r h') →
  spec (link_group slack k f g) h Q.
Proof.
  intros Hwf Hwg Hrf Hrg Hpos HQ.
  pose proof (read_length _ _ _ Hrf) as Hlf.
  pose proof (read_length _ _ _ Hrg) as Hlg.
  unfold link_group. rewrite bool_decide_false by lia.
  (* the connective on the receiver's last element *)
  apply spec_bind.
  set (h1 := if decide (0 < len f)
             then alter (alter (set_ChainingKey k) (off f + (len f - 1)))
                    (data f) h
             else h).
  assert (grows [] h h1) as Hg1.
  { unfold h1. case_decide; [apply grows_key | apply grows_refl]. }
  assert (read f h1 = Some (set_last k l)) as Hrf1.
  { unfold h1. case_decide.
    - unfold set_last. rewrite Hlf. by apply read_alter_same; [| lia |].
    - destruct l; [done | simpl in Hlf; lia]. }
  assert (0 < len f → data g ≠ data f → read g h1 = Some xs) as Hrg1.
  { intros Hf Hne. unfold h1. rewrite decide_True by done.
    rewrite read_alter_other; [done | auto]. }
  assert (len f = 0 → read g h1 = Some xs) as Hrg1'.
  { intros Hf. unfold h1. by rewrite decide_False by lia. }
  assert (spec (if bool_decide (0 < len f)
                then modify f (len f - 1) (set_ChainingKey k)
                else mret tt) h (λ _ h', h' = h1)) as Hstep.
  { unfold h1. case_bool_decide.
    - rewrite decide_True by done. apply spec_modify; [done | lia | done].
    - rewrite decide_False by done. by apply spec_ret. }
  eapply spec_mono; [| exact Hstep]. intros [] ? ->. clear Hstep.
  assert (wf_slice h1 f) as Hwf1 by (eapply wf_slice_mono; [apply Hg1 | done]).
  assert (wf_slice h1 g) as Hwg1 by (eapply wf_slice_mono; [apply Hg1 | done]).
  destruct (read_wf h1 g Hwg1) as [xs1 Hxs1].
  (* the two group markers on the argument slice *)
  apply spec_bind, spec_modify; [done | lia |].
  set (h2 := alter _ _ h1).
  assert (grows [] h1 h2) as Hg2 by apply grows_open.
  assert (wf_slice h2 g) as Hwg2 by (eapply wf_slice_mono; [apply Hg2 | done]).
  assert (read g h2 = Some (alter (set_IsGroupOpen true) 0 xs1)) as Hxs2.
  { by apply read_alter_same; [| lia |]. }
  apply spec_bind, spec_modify; [done | lia |].
  set (h3 := alter _ _ h2).
  assert (grows [] h2 h3) as Hg3 by apply grows_close.
  assert (wf_slice h3 g) as Hwg3 by (eapply wf_slice_mono; [apply Hg3 | done]).
  pose proof (read_length _ _ _ Hxs1) as Hlx1.
  assert (read g h3 = Some (mark_group xs1)) as Hxs3.
  { unfold mark_group. rewrite Hlx1. by apply read_alter_same; [| lia |]. }
  assert (wf_slice h3 f) as Hwf3.
  { eapply wf_slice_mono; [apply Hg3 |].
    eapply wf_slice_mono; [apply Hg2 | done]. }
  destruct (read_wf h3 f Hwf3) as [l3 Hl3].
  apply spec_bind, (spec_read_all g h3 _ _ Hxs3).
  apply (spec_append slack f _ h3 l3 _ Hwf3 Hl3).
  intros r h' Hr' Hwr' Hlen' Hg'.
  assert (length (mark_group xs1) = len g) as Hlm.
  { unfold mark_group. by rewrite !length_alter. }
  apply HQ; [done | lia | | | |].
  - eapply grows_trans; [exact Hg1 |].
    eapply grows_trans; [exact Hg2 |].
    eapply grows_trans; [exact Hg3 |].
    eapply grows_read; [exact Hxs3 | exact Hg'].
  - intros Hf Hne. rewrite Hr'. f_equal.
    assert (xs1 = xs) as -> by (specialize (Hrg1 Hf Hne); congruence).
    f_equal. unfold h3, h2 in Hl3.
    rewrite !read_alter_other in Hl3 by auto. congruence.
  - intros Hf. rewrite Hr'. f_equal.
    assert (xs1 = xs) as -> by (specialize (Hrg1' Hf); congruence).
    pose proof (read_length _ _ _ Hl3) as Hl3'.
    destruct l3; [done | simpl in Hl3'; lia].
  - exists l3, xs1. split_and!; [done | by eapply read_length | done |].
    pose proof (read_alter_proj ChainingKey (set_IsGroupClose true) f h2
                  (off g + (len g - 1)) (data g) (λ _, eq_refl)) as E3.
    pose proof (read_alter_proj ChainingKey (set_IsGroupOpen true) f h1
                  (off g + 0) (data g) (λ _, eq_refl)) as E2.
    fold h2 in E2. fold h3 in E3. rewrite E2, Hl3, Hrf1 in E3.
    by injection E3.
Qed.

Lemma call_AndGroup_link : call_AndGroup slack = call_group slack And.
Proof. reflexivity. Qed.
Lemma call_OrGroup_link : call_OrGroup slack = call_group slack Or.
Proof. reflexivity. Qed.

Lemma spec_call_group k f args h l (Q : Filters → heap → Prop) :
  wf_slice h f → read f h = Some l →
  (∀ r h',
     read r h' = Some (grouped k l args) → wf_slice h' r →
     len r = len f + length args → grows args h h' →
     (args = [] → r = f ∧ h' = h) →
     Q r h') →
  spec (call_group slack k f args) h Q.
Proof.
  intros Hwf Hr HQ. pose proof (read_length _ _ _ Hr) as Hl.
  unfold call_group. apply spec_bind.
  destruct args as [| a args'].
  - apply spec_ret. unfold link_group. simpl. apply spec_ret.
    apply HQ; [done | done | simpl; lia | apply grows_refl | done].
  - set (args := a :: args') in *.
    apply spec_alloc.
    set (g := mkFilters _ _ _ _). set (h0 := h ++ _).
    assert (grows args h h0) as Hg0 by (apply grows_alloc; auto).
    assert (wf_slice h0 f) as Hwf0 by (eapply wf_slice_mono; [apply Hg0 | done]).
    assert (read f h0 = Some l) as Hr0.
    { rewrite <- Hr. apply read_frame. intros Hpos.
      destruct (wf_slice_array h f Hwf) as (arr & Ha & _);
        [destruct Hwf; lia |].
      unfold h0. by rewrite (lookup_app_l_Some _ _ _ _ Ha). }
    apply (spec_link_group k f g h0 l args).
    + done.
    + apply wf_slice_alloc.
    + done.
    + apply read_alloc.
    + simpl. lia.
    + intros r h' Hwr Hlen Hg Hdisj Hemp _.
      apply HQ; [| done | done | | done].
      * destruct (decide (len f = 0)) as [Hz | Hz].
        -- rewrite (Hemp Hz). destruct l; [done | simpl in Hl; lia].
        -- apply Hdisj; [lia |]. simpl.
           destruct (wf_slice_array h f Hwf) as (arr & Ha & _);
             [destruct Hwf; lia |].
           apply lookup_lt_Some in Ha. lia.
      * eapply grows_trans; [exact Hg0 |]. by apply grows_nil.
Qed.

End BuilderSpecs.

(** ** Programs and chains never panic, and what they keep *)

Lemma var_wf e h x : env_wf e h → wf_slice h (var e x).
Proof.
  intros He. unfold var. destruct (e !! x) as [f |] eqn:E; simpl.
  - by eapply He.
  - by apply wf_slice_empty.
Qed.

Lemma env_wf_insert e h h' x r xs :
  env_wf e h → grows xs h h' → wf_slice h' r → env_wf (<[x := r]> e) h'.
Proof.
  intros He [Hs _] Hr y f. rewrite lookup_insert. case_decide.
  - by intros [= <-].
  - intros Hy. eapply wf_slice_mono; [exact Hs |]. by eapply He.
Qed.

Section ProgramSpecs.

Variable slack : nat → nat → nat.

Lemma spec_link_group_any k f g h (Q : Filters → heap → Prop) :
  wf_slice h f → wf_slice h g →
  (∀ r h', wf_slice h' r → grows [] h h' → Q r h') →
  spec (link_group slack k f g) h Q.
Proof.
  intros Hwf Hwg HQ.
  destruct (decide (len g = 0)) as [Hz | Hz].
  - unfold link_group. rewrite bool_decide_true by done.
    apply spec_ret, HQ; [done | apply grows_refl].
  - destruct (read_wf h f Hwf) as [l Hl].
    destruct (read_wf h g Hwg) as [xs Hxs].
    apply (spec_link_group slack k f g h l xs); try done; [lia |].
    intros r h' Hwr _ Hg _ _ _. by apply HQ.
Qed.

Lemma exec_spec s e h :
  env_wf e h →
  spec (exec slack s e) h (λ e' h', env_wf e' h' ∧ grows (supplied s) h h').
Proof.
  intros He. destruct s as [x | x n o v | x y n o v | x y n o v
                            | x y args | x y args | x y g | x y g]; simpl.
  - apply spec_ret. split; [| apply grows_refl].
    eapply env_wf_insert; [done | apply (grows_refl []) |].
    by apply wf_slice_empty.
  - apply spec_bind, spec_FilterBy. intros r h' _ Hwr _ _ Hg.
    apply spec_ret. split; [by eapply env_wf_insert | done].
  - rewrite Filters_And_link.
    destruct (read_wf h (var e y) (var_wf e h y He)) as [l Hl].
    apply spec_bind, (spec_link slack And _ n o v h l);
      [by apply var_wf | done |].
    intros r h' _ Hwr _ Hg.
    apply spec_ret. split; [by eapply env_wf_insert | done].
  - rewrite Filters_Or_link.
    destruct (read_wf h (var e y) (var_wf e h y He)) as [l Hl].
    apply spec_bind, (spec_link slack Or _ n o v h l);
      [by apply var_wf | done |].
    intros r h' _ Hwr _ Hg.
    apply spec_ret. split; [by eapply env_wf_insert | done].
  - rewrite call_AndGroup_link.
    destruct (read_wf h (var e y) (var_wf e h y He)) as [l Hl].
    apply spec_bind, (spec_call_group slack And _ args h l);
      [by apply var_wf | done |].
    intros r h' _ Hwr _ Hg _.
    apply spec_ret. split; [by eapply env_wf_insert | done].
  - rewrite call_OrGroup_link.
    destruct (read_wf h (var e y) (var_wf e h y He)) as [l Hl].
    apply spec_bind, (spec_call_group slack Or _ args h l);
      [by apply var_wf | done |].
    intros r h' _ Hwr _ Hg _.
    apply spec_ret. split; [by eapply env_wf_insert | done].
  - rewrite Filters_AndGroup_link.
    apply spec_bind, spec_link_group_any; [by apply var_wf .. |].
    intros r h' Hwr Hg.
    apply spec_ret. split; [by eapply env_wf_insert | done].
  - rewrite Filters_OrGroup_link.
    apply spec_bind, spec_link_group_any; [by apply var_wf .. |].
    intros r h' Hwr Hg.
    apply spec_ret. split; [by eapply env_wf_insert | done].
Qed.

Lemma run_spec prog e h :
  env_wf e h →
  spec (run slack prog e) h
    (λ e' h', env_wf e' h' ∧ grows (supplied_by prog) h h').
Proof.
  revert e h. induction prog as [| s prog IH]; intros e h He; simpl.
  - apply spec_ret. split; [done | apply grows_refl].
  - apply spec_bind.
    eapply spec_mono; [| by apply exec_spec].
    intros e1 h1 [He1 Hg1]. simpl in Hg1.
    eapply spec_mono; [| by apply IH].
    intros e2 h2 [He2 Hg2]. simpl in Hg2. split; [done |].
    unfold supplied_by. simpl.
    eapply grows_trans.
    + eapply grows_weaken; [| exact Hg1].
      intros z Hz. apply elem_of_app. by left.
    + eapply grows_weaken; [| exact Hg2].
      intros z Hz. apply elem_of_app. by right.
Qed.

(** Every variable of every program ends up holding elements that satisfy
    any builder-closed property the supplied elements satisfy. *)
Lemma run_keeps (P : Filter → Prop) prog :
  builder_closed P → Forall P (supplied_by prog) →
  ∃ e h, run slack prog ∅ [] = Some (e, h) ∧
         ∀ x, ∃ l, read (var e x) h = Some l ∧ Forall P l.
Proof.
  intros HP Hsup.
  destruct (run_spec prog ∅ []) as (e & h & Hrun & He & _ & Hall).
  { intros x f. by rewrite lookup_empty. }
  exists e, h. split; [done |]. intros x.
  destruct (read_wf h (var e x) (var_wf e h x He)) as [l Hl].
  exists l. split; [done |].
  eapply heap_all_read; [| exact Hl].
  apply Hall; [done | done | constructor].
Qed.

Lemma invoke_spec c f h l (Q : Filters → heap → Prop) :
  wf_slice h f → read f h = Some l →
  (∀ r h', read r h' = Some (invoke_elems c l) → wf_slice h' r → Q r h') →
  spec (invoke slack c f) h Q.
Proof.
  intros Hwf Hl HQ. destruct c as [n o v | n o v | args | args]; simpl.
  - rewrite Filters_And_link. apply (spec_link slack And f n o v h l); auto.
  - rewrite Filters_Or_link. apply (spec_link slack Or f n o v h l); auto.
  - rewrite call_AndGroup_link.
    apply (spec_call_group slack And f args h l); auto.
  - rewrite call_OrGroup_link.
    apply (spec_call_group slack Or f args h l); auto.
Qed.

Lemma chain_spec cs f h l :
  wf_slice h f → read f h = Some l →
  spec (chain slack cs f) h
    (λ r h', read r h' = Some (chain_elems cs l) ∧ wf_slice h' r).
Proof.
  revert f h l. induction cs as [| c cs IH]; intros f h l Hwf Hl; simpl.
  - by apply spec_ret.
  - apply spec_bind, (invoke_spec c f h l); [done | done |].
    intros r h' Hr Hwr. by apply IH.
Qed.

End ProgramSpecs.

(** ** Branching from a shared base *)

Lemma insert_snoc {A} (l : list A) (x y : A) :
  <[length l := y]> (l ++ [x]) = l ++ [y].
Proof.
  replace (length l) with (length l + 0) by lia.
  by rewrite insert_app_r.
Qed.

Lemma insert_middle {A} (pre post : list A) (x y : A) :
  <[length pre := y]> (pre ++ x :: post) = pre ++ y :: post.
Proof.
  replace (length pre) with (length pre + 0) by lia.
  by rewrite insert_app_r.
Qed.

(** A call on a receiver without spare capacity: the connective is written
    into the receiver's own array, the result lives in a fresh one, and no
    other array is touched. *)
Lemma link_full slack k (pre post : heap) (l : list Filter) (x : Filter)
    field operator value :
  let n := S (length l) in
  let h := pre ++ (l ++ [x]) :: post in
  let res := l ++ [set_ChainingKey k x; Filter_lit field operator value] in
  link slack k (mkFilters (length pre) 0 n n) field operator value h
  = Some (mkFilters (length h) 0 (n + 1) (n + 1 + slack n (n + 1)),
          (pre ++ (l ++ [set_ChainingKey k x]) :: post)
          ++ [res ++ replicate (slack n (n + 1)) Filter_zero]).
Proof.
  intros n h res. subst h. unfold link, Filters_IsZero.
  cbn [len data off cap].
  rewrite bool_decide_false by (unfold n; lia).
  unfold mbind at 1, rt_bind. unfold modify. cbn [len data off cap].
  rewrite bool_decide_true by (unfold n; lia).
  rewrite list_lookup_middle by done. cbn [mbind option_bind].
  replace (0 + (n - 1)) with (length l) by (unfold n; lia).
  rewrite list_lookup_middle by done. cbn [mbind option_bind].
  rewrite insert_snoc, insert_middle.
  unfold append. cbn [len data off cap length].
  rewrite bool_decide_false by (unfold n; lia).
  unfold mbind, rt_bind, read_all, read. cbn [len data off cap].
  rewrite bool_decide_false by (unfold n; lia).
  rewrite list_lookup_middle by done. cbn [mbind option_bind].
  rewrite bool_decide_true by (rewrite length_app; simpl; unfold n; lia).
  rewrite drop_0, take_ge by (rewrite length_app; simpl; unfold n; lia).
  unfold alloc. do 2 f_equal.
  - rewrite !length_app. cbn [length]. f_equal; unfold n; lia.
  - unfold res. by rewrite <- !app_assoc.
Qed.

Lemma branching_result slack h0 :
  let x := Filter_lit "x" Op.Equal (VInt 1) in
  let y := Filter_lit "y" Op.Equal (VInt 2) in
  let z := Filter_lit "z" Op.Equal (VInt 3) in
  branching slack h0 =
  Some ((mkFilters (length h0) 0 1 1,
         mkFilters (length h0 + 1) 0 2 (2 + slack 1 2),
         mkFilters (length h0 + 2) 0 2 (2 + slack 1 2)),
        h0 ++ [[set_ChainingKey Or x];
               [set_ChainingKey And x; y] ++ replicate (slack 1 2) Filter_zero;
               [set_ChainingKey Or x; z] ++ replicate (slack 1 2) Filter_zero]).
Proof.
  intros x y z. unfold branching, FilterBy, alloc_lit, alloc.
  unfold mbind at 1, rt_bind at 1. cbn [length replicate app Nat.add].
  rewrite Filters_And_link.
  unfold mbind at 1, rt_bind at 1.
  rewrite (link_full slack And h0 [] [] x). cbn [length app Nat.add].
  rewrite <- app_assoc. cbn [app].
  rewrite Filters_Or_link.
  unfold mbind at 1, rt_bind at 1.
  rewrite (link_full slack Or h0 [_] [] (set_ChainingKey And x)).
  cbn [length app Nat.add mret rt_ret].
  rewrite !length_app. cbn [length]. rewrite <- !app_assoc.
  reflexivity.
Qed.

(** C1. Aliasing safety of the branching scenario: with
    [base := FilterBy("x", Equal, 1)], [b1 := base.And("y", Equal, 2)] and
    [b2 := base.Or("z", Equal, 3)] run in that order from any store and
    under any growth policy of [append], the three calls do not panic and,
    read after all of them, [b1] is [x AND y] with [b1[0].ChainingKey == AND]
    and [b2] is [x OR z] with [b2[0].ChainingKey == OR]: the write that
    either call makes to the last element of [base] does not show in the
    other call's result. *)
Theorem branching_alias_safe (slack : nat → nat → nat) (h0 : heap) :
  ∃ base b1 b2 h,
    branching slack h0 = Some ((base, b1, b2), h) ∧
    read b1 h = Some [set_ChainingKey And (Filter_lit "x" Op.Equal (VInt 1));
                      Filter_lit "y" Op.Equal (VInt 2)] ∧
    read b2 h = Some [set_ChainingKey Or (Filter_lit "x" Op.Equal (VInt 1));
                      Filter_lit "z" Op.Equal (VInt 3)] ∧
    (∃ e1, load b1 0 h = Some (e1, h) ∧ ChainingKey e1 = And) ∧
    (∃ e2, load b2 0 h = Some (e2, h) ∧ ChainingKey e2 = Or).
Proof.
  eexists _, _, _, _. split; [apply branching_result |].
  assert (∀ (a b c : list Filter),
            (h0 ++ [a; b; c]) !! (length h0 + 1) = Some b) as E1.
  { intros a b c. by rewrite lookup_app_r, Nat.add_sub' by lia. }
  assert (∀ (a b c : list Filter),
            (h0 ++ [a; b; c]) !! (length h0 + 2) = Some c) as E2.
  { intros a b c. by rewrite lookup_app_r, Nat.add_sub' by lia. }
  unfold read, load. cbn [len data off bool_decide decide_rel].
  rewrite !bool_decide_false, !bool_decide_true by lia.
  rewrite E1, E2. cbn.
  rewrite !bool_decide_true by lia.
  split_and!; [done | done | |]; eexists; (split; [reflexivity | done]).
Qed.

(** The scenario above is safe because a [FilterBy] result has no spare
    capacity, so each branch reallocates.  A base that has room left is
    extended in place by both branches: with doubling growth,
    [FilterBy("x", ..).And("y", ..).And("w", ..)] has length 3 and capacity
    4, and the second branch from it overwrites the first. *)
Remark branching_with_room_overwrites :
  ∃ before after h,
    branching_with_room [] = Some ((before, after), h) ∧
    (λ e, (Field e, ChainingKey e)) <$> before
      = [("x", And); ("y", And); ("w", And); ("p", "")] ∧
    (λ e, (Field e, ChainingKey e)) <$> after
      = [("x", And); ("y", And); ("w", Or); ("q", "")].
Proof. eexists _, _, _. split; [vm_compute; reflexivity |]. by vm_compute. Qed.

(** C3. Chaining placement: [FilterBy(f1).And(f2)] has length 2, its
    element 0 is [f1] with [ChainingKey == AND] and its element 1 is the
    plain predicate [f2], with no group marker and no chaining key.  In
    general, on a receiver with elements [l], [And] and [Or] return a
    sequence one longer whose elements are [l] with the connective stored
    on its last element (if there is one), followed by the new plain
    predicate, which carries no connective. *)
Theorem chaining_placement (slack : nat → nat → nat) :
  (∀ h0 name1 op1 v1 name2 op2 v2,
     ∃ r h e0 e1,
       (a ← FilterBy name1 op1 v1; Filters_And slack a name2 op2 v2) h0
         = Some (r, h) ∧
       len r = 2 ∧ read r h = Some [e0; e1] ∧
       e0 = mkFilter "" false 0 name1 op1 v1 false 0 And "" ∧
       e1 = mkFilter "" false 0 name2 op2 v2 false 0 "" "" ∧
       ChainingKey e0 = And ∧
       IsGroupOpen e1 = false ∧ IsGroupClose e1 = false ∧
       ChainingKey e1 = "") ∧
  (∀ h f l field operator value,
     wf_slice h f → read f h = Some l →
     (∃ r h',
        Filters_And slack f field operator value h = Some (r, h') ∧
        len r = len f + 1 ∧
        read r h' = Some (alter (set_ChainingKey And) (length l - 1) l
                          ++ [Filter_lit field operator value])) ∧
     (∃ r h',
        Filters_Or slack f field operator value h = Some (r, h') ∧
        len r = len f + 1 ∧
        read r h' = Some (alter (set_ChainingKey Or) (length l - 1) l
                          ++ [Filter_lit field operator value]))).
Proof.
  split.
  - intros h0 name1 op1 v1 name2 op2 v2.
    assert (spec (a ← FilterBy name1 op1 v1;
                  Filters_And slack a name2 op2 v2) h0
              (λ r h, len r = 2 ∧
                 read r h = Some [set_ChainingKey And
                                    (Filter_lit name1 op1 v1);
                                  Filter_lit name2 op2 v2])) as Hs.
    { apply spec_bind, spec_FilterBy. intros a h1 Ha Hwa Hla _ _.
      rewrite Filters_And_link.
      eapply spec_link; [exact Hwa | exact Ha |].
      intros r h Hr _ Hlr _. split; [lia | exact Hr]. }
    destruct Hs as (r & h & Hrun & Hlen & Hread).
    eexists r, h, _, _. by split_and!.
  - intros h f l field operator value Hwf Hl. split.
    + rewrite Filters_And_link.
      eapply (spec_link slack And f field operator value h l); [done .. |].
      by intros r h' Hr _ Hlr _.
    + rewrite Filters_Or_link.
      eapply (spec_link slack Or f field operator value h l); [done .. |].
      by intros r h' Hr _ Hlr _.
Qed.

Lemma chaining_placement_witness :
  ∃ r h',
    Filters_And doubling (mkFilters 0 0 1 1) "b" Op.Equal (VInt 2)
      [[Filter_lit "a" Op.Equal (VInt 1)]] = Some (r, h') ∧
    len r = 1 + 1 ∧
    read r h' = Some [set_ChainingKey And (Filter_lit "a" Op.Equal (VInt 1));
                      Filter_lit "b" Op.Equal (VInt 2)].
Proof.
  destruct (chaining_placement doubling) as [_ H].
  destruct (H [[Filter_lit "a" Op.Equal (VInt 1)]] (mkFilters 0 0 1 1)
              [Filter_lit "a" Op.Equal (VInt 1)] "b" Op.Equal (VInt 2))
    as [HA _].
  - split; [simpl; lia | right; simpl; lia].
  - reflexivity.
  - exact HA.
Defined.

Lemma set_last_key k l :
  l ≠ [] → ChainingKey <$> set_last k l !! (length l - 1) = Some k.
Proof.
  intros Hne. unfold set_last. rewrite list_lookup_alter_eq.
  destruct (lookup_lt_is_Some_2 l (length l - 1)) as [x ->]; [| done].
  destruct l; [done | simpl; lia].
Qed.

Lemma mark_group_open xs :
  xs ≠ [] → IsGroupOpen <$> mark_group xs !! 0 = Some true.
Proof.
  intros Hne. destruct xs as [| x xs']; [done |].
  unfold mark_group. rewrite list_lookup_alter.
  case_decide as E; [by rewrite E |]. done.
Qed.

Lemma mark_group_close xs :
  xs ≠ [] → IsGroupClose <$> mark_group xs !! (length xs - 1) = Some true.
Proof.
  intros Hne. unfold mark_group. rewrite list_lookup_alter_eq.
  destruct (lookup_lt_is_Some_2 (alter (set_IsGroupOpen true) 0 xs)
              (length xs - 1)) as [y ->]; [| done].
  rewrite length_alter. destruct xs; [done | simpl; lia].
Qed.

Lemma mark_group_length xs : length (mark_group xs) = length xs.
Proof. unfold mark_group. by rewrite !length_alter. Qed.

(** What [AndGroup]/[OrGroup] guarantee whatever arrays the receiver and
    the argument slice share. *)
Lemma link_group_markers slack k f g h :
  wf_slice h f → wf_slice h g → 0 < len f → 0 < len g →
  ∃ r h' res,
    link_group slack k f g h = Some (r, h') ∧
    read r h' = Some res ∧ length res = len f + len g ∧
    ChainingKey <$> res !! (len f - 1) = Some k ∧
    IsGroupOpen <$> res !! len f = Some true ∧
    IsGroupClose <$> res !! (len f + len g - 1) = Some true.
Proof.
  intros Hwf Hwg Hf Hg.
  destruct (read_wf h f Hwf) as [l Hl].
  destruct (read_wf h g Hwg) as [xs Hxs].
  pose proof (read_length _ _ _ Hl) as Hll.
  assert (l ≠ []) as Hne by (intros ->; simpl in Hll; lia).
  assert (spec (link_group slack k f g) h (λ r h', ∃ res,
            read r h' = Some res ∧ length res = len f + len g ∧
            ChainingKey <$> res !! (len f - 1) = Some k ∧
            IsGroupOpen <$> res !! len f = Some true ∧
            IsGroupClose <$> res !! (len f + len g - 1) = Some true)) as Hs.
  { apply (spec_link_group slack k f g h l xs); [done .. |].
    intros r h' _ _ _ _ _ (l' & xs' & Hr & Hl' & Hx' & Hck).
    assert (xs' ≠ []) as Hxne by (intros ->; simpl in Hx'; lia).
    exists (l' ++ mark_group xs'). split_and!; [done | | | |].
    - rewrite length_app, mark_group_length. lia.
    - rewrite lookup_app_l by lia.
      rewrite <- list_lookup_fmap, Hck, list_lookup_fmap, <- Hll.
      by apply set_last_key.
    - rewrite lookup_app_r by lia. rewrite Hl', Nat.sub_diag.
      by apply mark_group_open.
    - rewrite lookup_app_r by lia.
      replace (len f + len g - 1 - length l') with (length xs' - 1) by lia.
      by apply mark_group_close. }
  destruct Hs as (r & h' & Hrun & res & Hres).
  by exists r, h', res.
Qed.

(** C4. Group wrapping: [FilterBy("a", Equal, 1).AndGroup(Filter{Field:"b",
    Operator: Equal, Value: 2}, Filter{Field:"c", Operator: Equal, Value:
    3})] is a 3-element sequence whose element 0 has [ChainingKey == AND],
    element 1 has [IsGroupOpen == true] and element 2 has
    [IsGroupClose == true].  In general, [AndGroup] and [OrGroup] called on
    a non-empty receiver with a non-empty argument list return the
    receiver's elements with the connective stored on the last of them,
    followed by the supplied elements in order, the first flagged
    group-open and the last group-close; the same holds when the arguments
    are passed as a slice [g...] over another array than the receiver's.
    Whatever the two slices share, the result is as long as both together,
    the element at the receiver's last position has the connective, the
    next one is flagged group-open and the last one group-close. *)
Theorem group_wrapping (slack : nat → nat → nat) :
  (∀ h0,
     ∃ r h e0 e1 e2,
       (a ← FilterBy "a" Op.Equal (VInt 1);
        call_AndGroup slack a [Filter_lit "b" Op.Equal (VInt 2);
                               Filter_lit "c" Op.Equal (VInt 3)]) h0
         = Some (r, h) ∧
       len r = 3 ∧ read r h = Some [e0; e1; e2] ∧
       ChainingKey e0 = And ∧ IsGroupOpen e1 = true ∧
       IsGroupClose e2 = true ∧
       e0 = set_ChainingKey And (Filter_lit "a" Op.Equal (VInt 1)) ∧
       e1 = set_IsGroupOpen true (Filter_lit "b" Op.Equal (VInt 2)) ∧
       e2 = set_IsGroupClose true (Filter_lit "c" Op.Equal (VInt 3))) ∧
  (∀ h f l args,
     wf_slice h f → read f h = Some l → l ≠ [] → args ≠ [] →
     (∃ r h',
        call_AndGroup slack f args h = Some (r, h') ∧
        len r = len f + length args ∧
        read r h' =
          Some (alter (set_ChainingKey And) (length l - 1) l
                ++ alter (set_IsGroupClose true) (length args - 1)
                     (alter (set_IsGroupOpen true) 0 args))) ∧
     (∃ r h',
        call_OrGroup slack f args h = Some (r, h') ∧
        len r = len f + length args ∧
        read r h' =
          Some (alter (set_ChainingKey Or) (length l - 1) l
                ++ alter (set_IsGroupClose true) (length args - 1)
                     (alter (set_IsGroupOpen true) 0 args)))) ∧
  (∀ h f g l xs,
     wf_slice h f → wf_slice h g →
     read f h = Some l → read g h = Some xs →
     l ≠ [] → xs ≠ [] → data g ≠ data f →
     (∃ r h',
        Filters_AndGroup slack f g h = Some (r, h') ∧
        len r = len f + len g ∧
        read r h' =
          Some (alter (set_ChainingKey And) (length l - 1) l
                ++ alter (set_IsGroupClose true) (length xs - 1)
                     (alter (set_IsGroupOpen true) 0 xs))) ∧
     (∃ r h',
        Filters_OrGroup slack f g h = Some (r, h') ∧
        len r = len f + len g ∧
        read r h' =
          Some (alter (set_ChainingKey Or) (length l - 1) l
                ++ alter (set_IsGroupClose true) (length xs - 1)
                     (alter (set_IsGroupOpen true) 0 xs)))) ∧
  (∀ h f g,
     wf_slice h f → wf_slice h g → 0 < len f → 0 < len g →
     (∃ r h' res,
        Filters_AndGroup slack f g h = Some (r, h') ∧
        read r h' = Some res ∧ length res = len f + len g ∧
        ChainingKey <$> res !! (len f - 1) = Some And ∧
        IsGroupOpen <$> res !! len f = Some true ∧
        IsGroupClose <$> res !! (len f + len g - 1) = Some true) ∧
     (∃ r h' res,
        Filters_OrGroup slack f g h = Some (r, h') ∧
        read r h' = Some res ∧ length res = len f + len g ∧
        ChainingKey <$> res !! (len f - 1) = Some Or ∧
        IsGroupOpen <$> res !! len f = Some true ∧
        IsGroupClose <$> res !! (len f + len g - 1) = Some true)).
Proof.
  split_and!.
  - intros h0.
    assert (spec (a ← FilterBy "a" Op.Equal (VInt 1);
                  call_AndGroup slack a [Filter_lit "b" Op.Equal (VInt 2);
                                         Filter_lit "c" Op.Equal (VInt 3)]) h0
              (λ r h, len r = 3 ∧
                 read r h =
                   Some [set_ChainingKey And (Filter_lit "a" Op.Equal (VInt 1));
                         set_IsGroupOpen true (Filter_lit "b" Op.Equal (VInt 2));
                         set_IsGroupClose true
                           (Filter_lit "c" Op.Equal (VInt 3))])) as Hs.
    { apply spec_bind, spec_FilterBy. intros a h1 Ha Hwa Hla _ _.
      rewrite call_AndGroup_link.
      eapply spec_call_group; [exact Hwa | exact Ha |].
      intros r h Hr _ Hlr _ _. split; [simpl in Hlr; lia | exact Hr]. }
    destruct Hs as (r & h & Hrun & Hlen & Hread).
    eexists r, h, _, _, _. by split_and!.
  - intros h f l args Hwf Hl Hne Hargs. split.
    + rewrite call_AndGroup_link.
      eapply (spec_call_group slack And f args h l); [done .. |].
      intros r h' Hr _ Hlr _ _. split; [done |].
      rewrite Hr. by destruct args.
    + rewrite call_OrGroup_link.
      eapply (spec_call_group slack Or f args h l); [done .. |].
      intros r h' Hr _ Hlr _ _. split; [done |].
      rewrite Hr. by destruct args.
  - intros h f g l xs Hwf Hwg Hl Hxs Hne Hxne Hdisj.
    pose proof (read_length _ _ _ Hl) as Hll.
    pose proof (read_length _ _ _ Hxs) as Hlx.
    assert (0 < len f) by (destruct l; [done | simpl in Hll; lia]).
    assert (0 < len g) by (destruct xs; [done | simpl in Hlx; lia]).
    split.
    + rewrite Filters_AndGroup_link.
      eapply (spec_link_group slack And f g h l xs); [done .. |].
      intros r h' _ Hlr _ Hr _ _. split; [done |]. by apply Hr.
    + rewrite Filters_OrGroup_link.
      eapply (spec_link_group slack Or f g h l xs); [done .. |].
      intros r h' _ Hlr _ Hr _ _. split; [done |]. by apply Hr.
  - intros h f g Hwf Hwg Hf Hg. split.
    + rewrite Filters_AndGroup_link. by apply link_group_markers.
    + rewrite Filters_OrGroup_link. by apply link_group_markers.
Qed.

Lemma group_wrapping_witness :
  (∃ r h',
     call_AndGroup doubling (mkFilters 0 0 1 1)
       [Filter_lit "b" Op.Equal (VInt 2); Filter_lit "c" Op.Equal (VInt 3)]
       [[Filter_lit "a" Op.Equal (VInt 1)]] = Some (r, h') ∧
     len r = 1 + 2 ∧
     read r h' =
       Some [set_ChainingKey And (Filter_lit "a" Op.Equal (VInt 1));
             set_IsGroupOpen true (Filter_lit "b" Op.Equal (VInt 2));
             set_IsGroupClose true (Filter_lit "c" Op.Equal (VInt 3))]) ∧
  (∃ r h',
     Filters_OrGroup doubling (mkFilters 0 0 1 1) (mkFilters 1 0 2 2)
       [[Filter_lit "a" Op.Equal (VInt 1)];
        [Filter_lit "b" Op.Equal (VInt 2); Filter_lit "c" Op.Equal (VInt 3)]]
       = Some (r, h') ∧
     len r = 1 + 2 ∧
     read r h' =
       Some [set_ChainingKey Or (Filter_lit "a" Op.Equal (VInt 1));
             set_IsGroupOpen true (Filter_lit "b" Op.Equal (VInt 2));
             set_IsGroupClose true (Filter_lit "c" Op.Equal (VInt 3))]) ∧
  (∃ r h' res,
     Filters_AndGroup doubling (mkFilters 0 0 1 1) (mkFilters 0 0 1 1)
       [[Filter_lit "a" Op.Equal (VInt 1)]] = Some (r, h') ∧
     read r h' = Some res ∧ length res = 1 + 1 ∧
     ChainingKey <$> res !! (1 - 1) = Some And ∧
     IsGroupOpen <$> res !! 1 = Some true ∧
     IsGroupClose <$> res !! (1 + 1 - 1) = Some true).
Proof.
  destruct (group_wrapping doubling) as (_ & H2 & H3 & H4). split_and!.
  - destruct (H2 [[Filter_lit "a" Op.Equal (VInt 1)]] (mkFilters 0 0 1 1)
                [Filter_lit "a" Op.Equal (VInt 1)]
                [Filter_lit "b" Op.Equal (VInt 2);
                 Filter_lit "c" Op.Equal (VInt 3)]) as [HA _].
    + split; [simpl; lia | right; simpl; lia].
    + reflexivity.
    + discriminate.
    + discriminate.
    + exact HA.
  - destruct (H3 [[Filter_lit "a" Op.Equal (VInt 1)];
                  [Filter_lit "b" Op.Equal (VInt 2);
                   Filter_lit "c" Op.Equal (VInt 3)]]
                (mkFilters 0 0 1 1) (mkFilters 1 0 2 2)
                [Filter_lit "a" Op.Equal (VInt 1)]
                [Filter_lit "b" Op.Equal (VInt 2);
                 Filter_lit "c" Op.Equal (VInt 3)]) as [_ HO].
    + split; [simpl; lia | right; simpl; lia].
    + split; [simpl; lia | right; simpl; lia].
    + reflexivity.
    + reflexivity.
    + discriminate.
    + discriminate.
    + simpl. lia.
    + exact HO.
  - destruct (H4 [[Filter_lit "a" Op.Equal (VInt 1)]]
                (mkFilters 0 0 1 1) (mkFilters 0 0 1 1)) as [HA _].
    + split; [simpl; lia | right; simpl; lia].
    + split; [simpl; lia | right; simpl; lia].
    + simpl. lia.
    + simpl. lia.
    + exact HA.
Defined.

(** C5. Empty-receiver degradation: on a receiver without elements, such as
    [Filters{}], both [Or(field, operator, value)] and
    [And(field, operator, value)] do exactly what
    [FilterBy(field, operator, value)] does: they return a one-element
    sequence whose only element has the given field, operator and value and
    every other field zero, held in a fresh array, and they leave the rest
    of the store as it was, so the connective is stored nowhere. *)
Theorem empty_receiver_degrades (slack : nat → nat → nat) (f : Filters)
    (field : string) (operator : FilterOperator) (value : FilterValue)
    (h : heap) :
  Filters_IsZero f = true →
  Filters_Or slack f field operator value h = FilterBy field operator value h ∧
  Filters_And slack f field operator value h = FilterBy field operator value h ∧
  ∃ r,
    FilterBy field operator value h
      = Some (r, h ++ [[mkFilter "" false 0 field operator value
                          false 0 "" ""]]) ∧
    len r = 1 ∧
    read r (h ++ [[mkFilter "" false 0 field operator value false 0 "" ""]])
      = Some [mkFilter "" false 0 field operator value false 0 "" ""].
Proof.
  intros Hz. unfold Filters_Or, Filters_And. rewrite Hz.
  split_and!; [done | done |].
  eexists. split_and!; [reflexivity | done |].
  apply (read_alloc h [_] 0).
Qed.

Lemma empty_receiver_degrades_witness :
  Filters_Or doubling Filters_empty "x" Op.Equal (VInt 1) []
    = FilterBy "x" Op.Equal (VInt 1) [] ∧
  Filters_And doubling Filters_empty "x" Op.Equal (VInt 1) []
    = FilterBy "x" Op.Equal (VInt 1) [].
Proof.
  destruct (empty_receiver_degrades doubling Filters_empty "x" Op.Equal
              (VInt 1) []) as (HO & HA & _).
  - reflexivity.
  - split; [exact HO | exact HA].
Defined.

(** C6. Zero-group no-op: [f.AndGroup()] and [f.OrGroup()] return the
    receiver's own header and leave the store untouched, so the result has
    the receiver's length and elements, the chaining key of its last
    element included; the same holds when the arguments are passed as an
    empty slice [g...]. *)
Theorem zero_group_noop (slack : nat → nat → nat) (f : Filters) (h : heap) :
  call_AndGroup slack f [] h = Some (f, h) ∧
  call_OrGroup slack f [] h = Some (f, h) ∧
  (∀ d o c,
     Filters_AndGroup slack f (mkFilters d o 0 c) h = Some (f, h) ∧
     Filters_OrGroup slack f (mkFilters d o 0 c) h = Some (f, h)).
Proof. split_and!; [reflexivity | reflexivity |]. intros. by split. Qed.

(** C7. Pagination unset semantics: the zero value [Pagination{}] reports
    [IsZero() == true], [HasPageNumber() == false] and
    [HasPageSize() == false]; for every value, [IsZero()] holds exactly when
    both fields are zero, [HasPageNumber()] exactly when [PageNumber > 0]
    and [HasPageSize()] exactly when [PageSize > 0]. *)
Theorem pagination_unset_semantics :
  Pagination_IsZero Pagination_zero = true ∧
  Pagination_HasPageNumber Pagination_zero = false ∧
  Pagination_HasPageSize Pagination_zero = false ∧
  ∀ p,
    (Pagination_IsZero p = true ↔ PageNumber p = 0%N ∧ PageSize p = 0%N) ∧
    (Pagination_HasPageNumber p = true ↔ (0 < PageNumber p)%N) ∧
    (Pagination_HasPageSize p = true ↔ (0 < PageSize p)%N).
Proof.
  split_and!; [reflexivity .. |]. intros [n s].
  unfold Pagination_IsZero, Pagination_HasPageNumber, Pagination_HasPageSize.
  simpl. rewrite andb_true_iff, !N.eqb_eq, !N.ltb_lt. done.
Qed.

(** C8. Select replaces rather than accumulates:
    [New().Select("a", "b").Select("c")] has [SelectColumns == ["c"]], and
    for every criteria [c] and column lists [xs] and [ys],
    [c.Select(xs...).Select(ys...)] has [SelectColumns] equal to [ys]; it is
    the very value [c.Select(ys...)]. *)
Theorem select_last_call_wins :
  SelectColumns (Criteria_Select (Criteria_Select New ["a"; "b"]) ["c"])
    = ["c"] ∧
  ∀ c xs ys,
    SelectColumns (Criteria_Select (Criteria_Select c xs) ys) = ys ∧
    Criteria_Select (Criteria_Select c xs) ys = Criteria_Select c ys.
Proof. split; [reflexivity |]. intros c xs ys. by split. Qed.

(** ** The builder does not read [OverridePreviousFilterChainingKey] *)

Lemma commutes_ret {A} (ea : A → A) (x : A) : commutes ea (mret x) (mret (ea x)).
Proof. by intros h. Qed.

Lemma commutes_bind {A B} (ea : A → A) (eb : B → B) (m m' : rt A)
    (k k' : A → rt B) :
  commutes ea m m' → (∀ x, commutes eb (k x) (k' (ea x))) →
  commutes eb (m ≫= k) (m' ≫= k').
Proof.
  intros Hm Hk h. unfold mbind, rt_bind. rewrite Hm.
  destruct (m h) as [[x h1] |]; simpl; [apply Hk | done].
Qed.

Lemma forget_heap_lookup h a :
  forget_heap h !! a = (λ arr : list Filter, forget <$> arr) <$> (h !! a).
Proof. unfold forget_heap. apply list_lookup_fmap. Qed.

Lemma forget_heap_insert h a arr :
  forget_heap (<[a := arr]> h) = <[a := forget <$> arr]> (forget_heap h).
Proof. unfold forget_heap. apply list_fmap_insert. Qed.

Lemma commutes_modify f i upd :
  (∀ x, upd (forget x) = forget (upd x)) →
  commutes id (modify f i upd) (modify f i upd).
Proof.
  intros Hupd h. unfold modify. case_bool_decide; [| done].
  rewrite forget_heap_lookup.
  destruct (h !! data f) as [arr |]; simpl; [| done].
  rewrite list_lookup_fmap.
  destruct (arr !! (off f + i)) as [x |]; simpl; [| done].
  by rewrite forget_heap_insert, list_fmap_insert, Hupd.
Qed.

Lemma read_forget f h :
  read f (forget_heap h) = (λ l : list Filter, forget <$> l) <$> read f h.
Proof.
  unfold read. case_bool_decide; [done |].
  rewrite forget_heap_lookup.
  destruct (h !! data f) as [arr |]; simpl; [| done].
  rewrite length_fmap. case_bool_decide; [| done].
  simpl. by rewrite fmap_take, fmap_drop.
Qed.

Lemma commutes_read_all f :
  commutes (λ l : list Filter, forget <$> l) (read_all f) (read_all f).
Proof.
  intros h. unfold read_all. rewrite read_forget.
  by destruct (read f h).
Qed.

Lemma commutes_alloc xs extra :
  commutes id (alloc xs extra) (alloc (forget <$> xs) extra).
Proof.
  intros h. unfold alloc, forget_heap. simpl.
  rewrite !length_fmap. do 2 f_equal.
  rewrite (fmap_app (λ arr : list Filter, forget <$> arr) h). simpl.
  by rewrite (fmap_app forget xs), fmap_replicate.
Qed.

Lemma splice_forget i xs arr :
  forget <$> splice i xs arr = splice i (forget <$> xs) (forget <$> arr).
Proof.
  unfold splice.
  by rewrite !fmap_app, fmap_take, fmap_drop, length_fmap.
Qed.

Lemma commutes_write_block a i xs :
  commutes id (write_block a i xs) (write_block a i (forget <$> xs)).
Proof.
  intros h. unfold write_block. destruct xs as [| x xs']; [done |].
  rewrite fmap_cons. rewrite forget_heap_lookup.
  destruct (h !! a) as [arr |]; simpl; [| done].
  rewrite !length_fmap. case_bool_decide; [| done]. simpl.
  rewrite forget_heap_insert. do 3 f_equal.
  by rewrite (splice_forget i (x :: xs') arr).
Qed.

Section Forget.

Variable slack : nat → nat → nat.

Lemma commutes_append f xs :
  commutes id (append slack f xs) (append slack f (forget <$> xs)).
Proof.
  unfold append. rewrite length_fmap. case_bool_decide.
  - eapply commutes_bind; [apply commutes_write_block |].
    intros []. apply (commutes_ret id).
  - eapply commutes_bind; [apply commutes_read_all |].
    intros old. rewrite <- fmap_app. apply commutes_alloc.
Qed.

Lemma commutes_link k f field operator value :
  commutes id (link slack k f field operator value)
    (link slack k f field operator value).
Proof.
  unfold link. destruct (Filters_IsZero f).
  - exact (commutes_alloc [Filter_lit field operator value] 0).
  - eapply commutes_bind; [by apply commutes_modify |].
    intros []. exact (commutes_append f [Filter_lit field operator value]).
Qed.

Lemma commutes_link_group k f g :
  commutes id (link_group slack k f g) (link_group slack k f g).
Proof.
  unfold link_group. case_bool_decide; [apply (commutes_ret id) |].
  eapply (commutes_bind id).
  { case_bool_decide; [by apply commutes_modify | apply (commutes_ret id)]. }
  intros []. eapply commutes_bind; [by apply commutes_modify |].
  intros []. eapply commutes_bind; [by apply commutes_modify |].
  intros []. eapply commutes_bind; [apply commutes_read_all |].
  intros xs. apply commutes_append.
Qed.

Lemma commutes_call_group k f args :
  commutes id (call_group slack k f args)
    (call_group slack k f (forget <$> args)).
Proof.
  unfold call_group. eapply (commutes_bind id).
  - destruct args as [| a args'];
      [apply (commutes_ret id) | exact (commutes_alloc (a :: args') 0)].
  - intros g. apply commutes_link_group.
Qed.

Lemma commutes_exec s e :
  commutes id (exec slack s e) (exec slack (forget_stmt s) e).
Proof.
  destruct s as [x | x n o v | x y n o v | x y n o v
                 | x y args | x y args | x y g | x y g]; simpl;
    try (apply (commutes_ret id));
    (eapply (commutes_bind id); [| intros r; apply (commutes_ret id)]).
  - exact (commutes_alloc [Filter_lit n o v] 0).
  - apply commutes_link.
  - apply commutes_link.
  - apply commutes_call_group.
  - apply commutes_call_group.
  - apply commutes_link_group.
  - apply commutes_link_group.
Qed.

Lemma commutes_run prog e :
  commutes id (run slack prog e) (run slack (forget_stmt <$> prog) e).
Proof.
  revert e. induction prog as [| s prog IH]; intros e; simpl.
  - apply (commutes_ret id).
  - eapply commutes_bind; [apply commutes_exec |]. intros e'. apply IH.
Qed.

End Forget.

(** ** Quantities and balance *)

Lemma qty_zero_closed : builder_closed qty_zero.
Proof. by split. Qed.

Lemma override_unset_closed : builder_closed override_unset.
Proof. by split. Qed.

Lemma from_supplied_closed xs : builder_closed (from_supplied xs).
Proof.
  split.
  - intros f o v. left. by exists f, o, v.
  - by intros k x.
  - by intros b x.
  - by intros b x.
Qed.

Lemma builder_closed_and (P Q : Filter → Prop) :
  builder_closed P → builder_closed Q → builder_closed (λ x, P x ∧ Q x).
Proof.
  intros HP HQ. split.
  - intros. split; [apply (closed_lit P HP) | apply (closed_lit Q HQ)].
  - intros k x [? ?]. split; [by apply (closed_key P HP) | by apply (closed_key Q HQ)].
  - intros b x [? ?]. split; [by apply (closed_open P HP) | by apply (closed_open Q HQ)].
  - intros b x [? ?]. split; [by apply (closed_close P HP) | by apply (closed_close Q HQ)].
Qed.

Lemma builder_closed_impl (A : Prop) (P : Filter → Prop) :
  builder_closed P → builder_closed (λ x, A → P x).
Proof.
  intros HP. split.
  - intros f o v _. apply (closed_lit P HP).
  - intros k x Hx HA. apply (closed_key P HP). auto.
  - intros b x Hx HA. apply (closed_open P HP). auto.
  - intros b x Hx HA. apply (closed_close P HP). auto.
Qed.

Lemma sum_open_app l1 l2 : sum_open (l1 ++ l2) = (sum_open l1 + sum_open l2)%Z.
Proof. induction l1 as [| x l1 IH]; simpl; [done | rewrite IH; lia]. Qed.

Lemma sum_close_app l1 l2 :
  sum_close (l1 ++ l2) = (sum_close l1 + sum_close l2)%Z.
Proof. induction l1 as [| x l1 IH]; simpl; [done | rewrite IH; lia]. Qed.

Lemma depth_app l1 l2 : depth (l1 ++ l2) = (depth l1 + depth l2)%Z.
Proof. unfold depth. rewrite sum_open_app, sum_close_app. lia. Qed.

Lemma depth_alter f i l : keeps_qty f → depth (alter f i l) = depth l.
Proof.
  intros Hf. revert i. induction l as [| x l IH]; intros [| i]; try done.
  - unfold depth. simpl. destruct (Hf x) as [-> ->]. done.
  - change (alter f (S i) (x :: l)) with (x :: alter f i l).
    specialize (IH i). unfold depth in *. simpl. lia.
Qed.

Lemma depth_take_alter f i n l :
  keeps_qty f → depth (take n (alter f i l)) = depth (take n l).
Proof.
  intros Hf. rewrite take_alter. case_decide; [| done].
  by apply depth_alter.
Qed.

Lemma group_balanced_depth l :
  group_balanced l ↔ (∀ n, (0 ≤ depth (take n l))%Z) ∧ depth l = 0%Z.
Proof.
  unfold group_balanced. split.
  - by intros (_ & Hp & He).
  - intros [Hp He]. split_and!; [unfold depth in He; lia | done | done].
Qed.

Lemma group_balanced_alter f i l :
  keeps_qty f → group_balanced l → group_balanced (alter f i l).
Proof.
  intros Hf. rewrite !group_balanced_depth. intros [Hpre Hend]. split.
  - intros n. by rewrite depth_take_alter.
  - by rewrite depth_alter.
Qed.

Lemma group_balanced_app l1 l2 :
  group_balanced l1 → group_balanced l2 → group_balanced (l1 ++ l2).
Proof.
  rewrite !group_balanced_depth. intros [Hp1 He1] [Hp2 He2]. split.
  - intros n. rewrite take_app, depth_app.
    specialize (Hp1 n). specialize (Hp2 (n - length l1)). lia.
  - rewrite depth_app. lia.
Qed.

Lemma group_balanced_zero l : Forall qty_zero l → group_balanced l.
Proof.
  intros Hz.
  assert (∀ l', Forall qty_zero l' → sum_open l' = 0%Z ∧ sum_close l' = 0%Z)
    as Hsum.
  { induction 1 as [| x l' [Ho Hc] _ [IHo IHc]]; simpl; [done |]. lia. }
  unfold group_balanced, depth. split_and!.
  - destruct (Hsum l Hz). lia.
  - intros n. destruct (Hsum (take n l)); [by apply Forall_take | lia].
  - destruct (Hsum l Hz). lia.
Qed.

Lemma keeps_qty_key k : keeps_qty (set_ChainingKey k).
Proof. by intros x. Qed.
Lemma keeps_qty_open b : keeps_qty (set_IsGroupOpen b).
Proof. by intros x. Qed.
Lemma keeps_qty_close b : keeps_qty (set_IsGroupClose b).
Proof. by intros x. Qed.

Lemma group_balanced_lit field operator value :
  group_balanced [Filter_lit field operator value].
Proof. apply group_balanced_zero. by repeat constructor. Qed.

Lemma invoke_elems_balanced c l :
  group_balanced (call_block c) → group_balanced l →
  group_balanced (invoke_elems c l).
Proof.
  intros Hc Hl. destruct c as [n o v | n o v | args | args]; simpl in *.
  - apply group_balanced_app; [| apply group_balanced_lit].
    by apply group_balanced_alter; [apply keeps_qty_key |].
  - apply group_balanced_app; [| apply group_balanced_lit].
    by apply group_balanced_alter; [apply keeps_qty_key |].
  - destruct args as [| a args']; [done |].
    apply group_balanced_app.
    + by apply group_balanced_alter; [apply keeps_qty_key |].
    + apply group_balanced_alter; [apply keeps_qty_close |].
      by apply group_balanced_alter; [apply keeps_qty_open |].
  - destruct args as [| a args']; [done |].
    apply group_balanced_app.
    + by apply group_balanced_alter; [apply keeps_qty_key |].
    + apply group_balanced_alter; [apply keeps_qty_close |].
      by apply group_balanced_alter; [apply keeps_qty_open |].
Qed.

Lemma chain_elems_balanced cs l :
  Forall (λ c, group_balanced (call_block c)) cs → group_balanced l →
  group_balanced (chain_elems cs l).
Proof.
  intros Hcs. revert l. induction Hcs as [| c cs Hc _ IH]; intros l Hl.
  - done.
  - simpl. apply IH. by apply invoke_elems_balanced.
Qed.

(** C2, as amended.  A sequence built by one fluent chain of [And], [Or],
    [AndGroup] and [OrGroup] calls, starting from an empty sequence or from
    [FilterBy], is group-balanced (the sum of [GroupOpenQty] equals the sum
    of [GroupCloseQty], no prefix has closed more than it opened, and the
    balance ends at zero) whenever the argument list of each
    [AndGroup]/[OrGroup] call is group-balanced itself.  When the supplied
    elements all have zero quantities, every sequence held by any builder
    program, with branching and slice arguments, is group-balanced. *)
Theorem group_balance_of_built_sequences (slack : nat → nat → nat) :
  (∀ cs h0,
     Forall (λ c, group_balanced (call_block c)) cs →
     (∃ r h l,
        chain slack cs Filters_empty h0 = Some (r, h) ∧
        read r h = Some l ∧ group_balanced l) ∧
     (∀ name operator value,
        ∃ r h l,
          (a ← FilterBy name operator value; chain slack cs a) h0
            = Some (r, h) ∧
          read r h = Some l ∧ group_balanced l)) ∧
  (∀ prog,
     Forall qty_zero (supplied_by prog) →
     ∃ e h,
       run slack prog ∅ [] = Some (e, h) ∧
       ∀ x, ∃ l, read (var e x) h = Some l ∧ group_balanced l).
Proof.
  split.
  - intros cs h0 Hcs. split.
    + destruct (chain_spec slack cs Filters_empty h0 [])
        as (r & h & Hrun & Hr & _); [by apply wf_slice_empty | done |].
      exists r, h, (chain_elems cs []). split_and!; [done | done |].
      apply chain_elems_balanced; [done |].
      by apply group_balanced_zero.
    + intros name operator value.
      assert (spec (a ← FilterBy name operator value; chain slack cs a) h0
                (λ r h, read r h
                        = Some (chain_elems cs
                                  [Filter_lit name operator value]))) as Hs.
      { apply spec_bind, spec_FilterBy. intros a h1 Ha Hwa _ _ _.
        eapply spec_mono; [| by apply chain_spec]. by intros r h [Hr _]. }
      destruct Hs as (r & h & Hrun & Hr).
      exists r, h, (chain_elems cs [Filter_lit name operator value]).
      split_and!; [done | done |].
      apply chain_elems_balanced; [done | apply group_balanced_lit].
  - intros prog Hz.
    destruct (run_keeps slack qty_zero prog qty_zero_closed Hz)
      as (e & h & Hrun & Hall).
    exists e, h. split; [done |]. intros x.
    destruct (Hall x) as (l & Hl & Hq). exists l. split; [done |].
    by apply group_balanced_zero.
Qed.

Lemma group_balance_of_built_sequences_witness :
  (∃ r h l,
     chain doubling
       [CAnd "b" Op.Equal (VInt 2);
        COrGroup [mkFilter "" false 1 "c" Op.Equal (VInt 3) false 0 "" "";
                  mkFilter "" false 0 "d" Op.Equal (VInt 4) false 1 "" ""]]
       Filters_empty [] = Some (r, h) ∧
     read r h = Some l ∧ group_balanced l) ∧
  (∃ e h,
     run doubling
       [SFilterBy "base" "x" Op.Equal (VInt 1);
        SAnd "b1" "base" "y" Op.Equal (VInt 2);
        SOrGroup "b2" "base" [Filter_lit "z" Op.Equal (VInt 3)];
        SAndGroupOf "b3" "b1" "b2"] ∅ [] = Some (e, h) ∧
     ∃ l, read (var e "b3") h = Some l ∧ group_balanced l).
Proof.
  destruct (group_balance_of_built_sequences doubling) as [Hchain Hprog].
  split.
  - destruct (Hchain
                [CAnd "b" Op.Equal (VInt 2);
                 COrGroup
                   [mkFilter "" false 1 "c" Op.Equal (VInt 3) false 0 "" "";
                    mkFilter "" false 0 "d" Op.Equal (VInt 4) false 1 "" ""]]
                []) as [H _]; [| exact H].
    constructor; [| constructor; [| constructor]]; simpl.
    + apply group_balanced_zero. constructor.
    + apply group_balanced_depth. split; [| reflexivity].
      intros [| [| [| n]]]; vm_compute; discriminate.
  - destruct (Hprog [SFilterBy "base" "x" Op.Equal (VInt 1);
                     SAnd "b1" "base" "y" Op.Equal (VInt 2);
                     SOrGroup "b2" "base" [Filter_lit "z" Op.Equal (VInt 3)];
                     SAndGroupOf "b3" "b1" "b2"])
      as (e & h & Hrun & Hall).
    + repeat constructor.
    + exists e, h. split; [exact Hrun | apply Hall].
Defined.

(** C2 as first stated, without the proviso on the supplied elements,
    fails: [Filters{}.AndGroup(Filter{Field: "a", Operator: Equal,
    Value: 1, GroupCloseQty: 1})] is built through the builder alone and
    closes one group more than it opens. *)
Lemma group_balance_counterexample :
  ∃ r h l,
    call_AndGroup doubling Filters_empty
      [mkFilter "" false 0 "a" Op.Equal (VInt 1) false 1 "" ""] []
      = Some (r, h) ∧
    read r h = Some l ∧
    l = [mkFilter "" true 0 "a" Op.Equal (VInt 1) true 1 "" ""] ∧
    sum_open l = 0%Z ∧ sum_close l = 1%Z ∧
    ¬ group_balanced l.
Proof.
  eexists _, _, _. split_and!; [by vm_compute | by vm_compute | done ..|].
  intros [Hsum _]. vm_compute in Hsum. discriminate.
Qed.

Lemma nested_groups_result :
  ∃ e h l,
    run doubling nested_groups ∅ [] = Some (e, h) ∧
    read (var e "outer") h = Some l ∧
    Field <$> l = ["p"; "q"; "r"; "s"] ∧
    IsGroupOpen <$> l = [true; true; false; false] ∧
    IsGroupClose <$> l = [false; false; true; true] ∧
    Forall qty_zero l ∧
    marker_depths 0 l = [1; 2; 2; 1].
Proof.
  eexists _, _, _. split; [by vm_compute |]. split; [by vm_compute |].
  split_and!; try reflexivity. by repeat constructor.
Qed.

(** C9 as first stated fails in its last clause, that nesting beyond depth
    one is not representable: the builder alone, with no supplied element
    at all, builds [(p AND (q AND r) AND s)], in which [q] and [r] lie two
    groups deep. *)
Lemma nesting_counterexample :
  supplied_by nested_groups = [] ∧
  ∃ e h l,
    run doubling nested_groups ∅ [] = Some (e, h) ∧
    read (var e "outer") h = Some l ∧
    IsGroupOpen <$> l = [true; true; false; false] ∧
    IsGroupClose <$> l = [false; false; true; true] ∧
    Forall qty_zero l ∧
    nesting_depth l = 2 ∧ ¬ nesting_depth l ≤ 1.
Proof.
  split; [reflexivity |].
  destruct nested_groups_result
    as (e & h & l & Hrun & Hl & _ & Ho & Hc & Hz & Hd).
  exists e, h, l.
  assert (nesting_depth l = 2) as Hn.
  { unfold nesting_depth. rewrite Hd. reflexivity. }
  split; [exact Hrun |]. split; [exact Hl |]. split; [exact Ho |].
  split; [exact Hc |]. split; [exact Hz |]. split; [exact Hn |].
  rewrite Hn. lia.
Qed.

(** C9, as amended.  Every program of builder calls runs without panic,
    and each element of each sequence it holds is, apart from its chaining
    key and its two group flags, a plain predicate made by [FilterBy],
    [And] or [Or] or one of the elements the program supplied as group
    arguments: the builder writes no other field, and no quantity counter
    in particular.  Hence, when the supplied elements have zero
    [GroupOpenQty] and [GroupCloseQty], so has every element of every
    sequence, and group boundaries are recorded in the two flags only, one
    opening and one closing per element at most.  Groups whose boundaries
    fall on different elements do nest: passing built sequences as group
    arguments yields the flags open, open, close, close. *)
Theorem builder_never_writes_quantities :
  (∀ (slack : nat → nat → nat) (prog : list stmt),
     ∃ e h,
       run slack prog ∅ [] = Some (e, h) ∧
       ∀ x, ∃ l,
         read (var e x) h = Some l ∧
         Forall (from_supplied (supplied_by prog)) l ∧
         (Forall qty_zero (supplied_by prog) →
          Forall (λ y, GroupOpenQty y = 0%Z ∧ GroupCloseQty y = 0%Z) l)) ∧
  (∃ e h l,
     run doubling nested_groups ∅ [] = Some (e, h) ∧
     read (var e "outer") h = Some l ∧
     IsGroupOpen <$> l = [true; true; false; false] ∧
     IsGroupClose <$> l = [false; false; true; true] ∧
     marker_depths 0 l = [1; 2; 2; 1]).
Proof.
  split.
  - intros slack prog.
    set (xs := supplied_by prog).
    set (P := λ y, from_supplied xs y ∧ (Forall qty_zero xs → qty_zero y)).
    destruct (run_keeps slack P prog) as (e & h & Hrun & Hall).
    + apply builder_closed_and; [apply from_supplied_closed |].
      apply builder_closed_impl, qty_zero_closed.
    + apply Forall_forall. intros a Ha. split.
      * right. by exists a.
      * intros Hz. rewrite Forall_forall in Hz. auto.
    + exists e, h. split; [done |]. intros x.
      destruct (Hall x) as (l & Hl & HP). exists l. split; [done |].
      apply Forall_and in HP as [H1 H2]. split; [done |].
      intros Hz. eapply Forall_impl; [exact H2 |]. simpl.
      intros y Hy. by apply Hy.
  - destruct nested_groups_result
      as (e & h & l & Hrun & Hl & _ & Ho & Hc & _ & Hd).
    exists e, h, l.
    split; [exact Hrun |]. split; [exact Hl |]. split; [exact Ho |].
    split; [exact Hc | exact Hd].
Qed.

Lemma builder_never_writes_quantities_witness :
  ∃ e h,
    run doubling
      [SFilterBy "base" "x" Op.Equal (VInt 1);
       SAndGroup "g" "base" [Filter_lit "y" Op.Equal (VInt 2);
                             Filter_lit "z" Op.Equal (VInt 3)];
       SOrGroupOf "n" "base" "g"] ∅ [] = Some (e, h) ∧
    ∃ l, read (var e "n") h = Some l ∧
         Forall (λ y, GroupOpenQty y = 0%Z ∧ GroupCloseQty y = 0%Z) l.
Proof.
  destruct builder_never_writes_quantities as [H _].
  destruct (H doubling
              [SFilterBy "base" "x" Op.Equal (VInt 1);
               SAndGroup "g" "base" [Filter_lit "y" Op.Equal (VInt 2);
                                     Filter_lit "z" Op.Equal (VInt 3)];
               SOrGroupOf "n" "base" "g"]) as (e & h & Hrun & Hall).
  exists e, h. split; [exact Hrun |].
  destruct (Hall "n") as (l & Hl & _ & Hz).
  exists l. split; [exact Hl |]. apply Hz.
  repeat constructor.
Defined.

(** C10.  When no supplied element has
    [OverridePreviousFilterChainingKey] set, no element of any sequence of
    any builder program has.  And the builder never reads the field: two
    runs of programs that differ only in this field of their supplied
    elements, from stores that differ only in this field of their
    elements, panic together or return the same headers and stores that
    again differ in this field only, so every sequence has the same
    chaining keys in both. *)
Theorem override_neither_set_nor_read (slack : nat → nat → nat) :
  (∀ prog,
     Forall override_unset (supplied_by prog) →
     ∃ e h,
       run slack prog ∅ [] = Some (e, h) ∧
       ∀ x, ∃ l,
         read (var e x) h = Some l ∧
         Forall (λ y, OverridePreviousFilterChainingKey y = "") l) ∧
  (∀ prog1 prog2 e0 h1 h2,
     forget_stmt <$> prog1 = forget_stmt <$> prog2 →
     forget_heap h1 = forget_heap h2 →
     match run slack prog1 e0 h1, run slack prog2 e0 h2 with
     | Some (e1, h1'), Some (e2, h2') =>
         e1 = e2 ∧ forget_heap h1' = forget_heap h2' ∧
         ∀ x, (λ l : list Filter, ChainingKey <$> l) <$> read (var e1 x) h1'
              = (λ l : list Filter, ChainingKey <$> l) <$> read (var e2 x) h2'
     | None, None => True
     | _, _ => False
     end).
Proof.
  split.
  - intros prog Hu.
    apply (run_keeps slack override_unset prog override_unset_closed Hu).
  - intros prog1 prog2 e0 h1 h2 Hp Hh.
    pose proof (commutes_run slack prog1 e0 h1) as C1.
    pose proof (commutes_run slack prog2 e0 h2) as C2.
    rewrite Hp, Hh, C2 in C1. clear C2.
    destruct (run slack prog1 e0 h1) as [[e1 h1'] |],
             (run slack prog2 e0 h2) as [[e2 h2'] |]; simpl in C1;
      try done.
    injection C1 as -> Hh'. split_and!; [done | done |].
    intros x.
    assert (∀ h, (λ l : list Filter, ChainingKey <$> l) <$> read (var e1 x) h
                 = (λ l : list Filter, ChainingKey <$> l)
                     <$> read (var e1 x) (forget_heap h)) as E.
    { intros h. rewrite read_forget.
      destruct (read (var e1 x) h) as [l |]; simpl; [| done].
      f_equal. rewrite <- list_fmap_compose. by apply list_fmap_ext. }
    by rewrite (E h1'), (E h2'), Hh'.
Qed.

Lemma override_neither_set_nor_read_witness :
  (∃ e h,
     run doubling
       [SFilterBy "base" "x" Op.Equal (VInt 1);
        SAndGroup "g" "base" [Filter_lit "y" Op.Equal (VInt 2)];
        SOr "n" "g" "z" Op.Equal (VInt 3)] ∅ [] = Some (e, h) ∧
     ∃ l, read (var e "n") h = Some l ∧
          Forall (λ y, OverridePreviousFilterChainingKey y = "") l) ∧
  match
    run doubling
      [SAndGroup "g" "g"
         [mkFilter "" false 0 "y" Op.Equal (VInt 2) false 0 "" Or];
       SAnd "n" "g" "z" Op.Equal (VInt 3)] ∅ [],
    run doubling
      [SAndGroup "g" "g"
         [mkFilter "" false 0 "y" Op.Equal (VInt 2) false 0 "" And];
       SAnd "n" "g" "z" Op.Equal (VInt 3)] ∅ []
  with
  | Some (e1, h1), Some (e2, h2) =>
      e1 = e2 ∧ forget_heap h1 = forget_heap h2 ∧
      ∀ x, (λ l : list Filter, ChainingKey <$> l) <$> read (var e1 x) h1
           = (λ l : list Filter, ChainingKey <$> l) <$> read (var e2 x) h2
  | None, None => True
  | _, _ => False
  end.
Proof.
  destruct (override_neither_set_nor_read doubling) as [Hset Hread]. split.
  - destruct (Hset [SFilterBy "base" "x" Op.Equal (VInt 1);
                    SAndGroup "g" "base" [Filter_lit "y" Op.Equal (VInt 2)];
                    SOr "n" "g" "z" Op.Equal (VInt 3)])
      as (e & h & Hrun & Hall).
    + repeat constructor.
    + exists e, h. split; [exact Hrun | apply Hall].
  - exact (Hread
      [SAndGroup "g" "g"
         [mkFilter "" false 0 "y" Op.Equal (VInt 2) false 0 "" Or];
       SAnd "n" "g" "z" Op.Equal (VInt 3)]
      [SAndGroup "g" "g"
         [mkFilter "" false 0 "y" Op.Equal (VInt 2) false 0 "" And];
       SAnd "n" "g" "z" Op.Equal (VInt 3)]
      ∅ [] [] eq_refl eq_refl).
Defined.

(** * Further properties of the package *)

(** ** Where [append] puts its result, and what it leaves alone *)

Lemma splice_keeps_window o n i xs arr :
  o + n ≤ i → i ≤ length arr →
  take n (drop o (splice i xs arr)) = take n (drop o arr).
Proof.
  intros Hle Hi. unfold splice.
  rewrite drop_app_le by (rewrite length_take; lia).
  rewrite take_app_le by (rewrite length_drop, length_take; lia).
  replace i with (o + (i - o)) at 1 by lia.
  rewrite <- take_drop_commute, take_take. f_equal. lia.
Qed.

Lemma append_run slack f xs h l :
  wf_slice h f → read f h = Some l → xs ≠ [] →
  append slack f xs h =
    if bool_decide (len f + length xs ≤ cap f)
    then Some (mkFilters (data f) (off f) (len f + length xs) (cap f),
               alter (splice (off f + len f) xs) (data f) h)
    else Some (mkFilters (length h) 0 (length (l ++ xs))
                 (length (l ++ xs) + slack (cap f) (len f + length xs)),
               h ++ [(l ++ xs)
                     ++ replicate (slack (cap f) (len f + length xs))
                          Filter_zero]).
Proof.
  intros Hwf Hl Hne. unfold append. case_bool_decide as Hfit.
  - assert (0 < length xs) by (destruct xs; [done | simpl; lia]).
    destruct (wf_slice_array h f Hwf) as (arr & Ha & Hle); [lia |].
    unfold mbind, rt_bind.
    rewrite (write_block_alter h _ _ xs arr Ha) by lia. done.
  - unfold mbind, rt_bind, read_all. rewrite Hl. done.
Qed.

Lemma append_rich slack f xs h l :
  wf_slice h f → read f h = Some l → xs ≠ [] →
  ∃ r h',
    append slack f xs h = Some (r, h') ∧
    read r h' = Some (l ++ xs) ∧ read f h' = Some l ∧
    wf_slice h' r ∧ grows xs h h' ∧
    (∀ a, a ≠ data f → a < length h → h' !! a = h !! a) ∧
    (len f + length xs ≤ cap f →
     r = mkFilters (data f) (off f) (len f + length xs) (cap f) ∧
     length h' = length h) ∧
    (cap f < len f + length xs →
     data r = length h ∧ length h' = S (length h)).
Proof.
  intros Hwf Hl Hne.
  destruct (spec_append slack f xs h l
              (λ r h', read r h' = Some (l ++ xs) ∧ wf_slice h' r ∧
                       grows xs h h') Hwf Hl)
    as (r & h' & Hrun & Hr & Hwr & Hg); [done |].
  exists r, h'. split_and!; try done.
  - (* the receiver's own window *)
    rewrite (append_run slack f xs h l Hwf Hl Hne) in Hrun.
    pose proof (read_length _ _ _ Hl) as Hll.
    case_bool_decide as Hfit; injection Hrun as <- <-.
    + assert (0 < length xs) by (destruct xs; [done | simpl; lia]).
      destruct (wf_slice_array h f Hwf) as (arr & Ha & Hle); [lia |].
      rewrite (read_array h f arr) in Hl by (done || lia).
      injection Hl as <-.
      rewrite (read_array _ f (splice (off f + len f) xs arr)).
      * f_equal. apply splice_keeps_window; lia.
      * by rewrite list_lookup_alter_eq, Ha.
      * rewrite length_splice; lia.
    + rewrite <- Hl. apply read_frame. intros Hpos.
      destruct (wf_slice_array h f Hwf) as (arr & Ha & _);
        [destruct Hwf; lia |].
      by rewrite (lookup_app_l_Some _ _ _ _ Ha).
  - intros a Hne' Ha.
    rewrite (append_run slack f xs h l Hwf Hl Hne) in Hrun.
    case_bool_decide; injection Hrun as <- <-.
    + by apply list_lookup_alter_ne.
    + by apply lookup_app_l.
  - intros Hfit.
    rewrite (append_run slack f xs h l Hwf Hl Hne) in Hrun.
    rewrite bool_decide_true in Hrun by done. injection Hrun as <- <-.
    split; [done |]. apply length_alter.
  - intros Hfull.
    rewrite (append_run slack f xs h l Hwf Hl Hne) in Hrun.
    rewrite bool_decide_false in Hrun by lia. injection Hrun as <- <-.
    split; [done |]. rewrite length_app. simpl. lia.
Qed.

Lemma wf_slice_data_lt h f : wf_slice h f → 0 < cap f → data f < length h.
Proof.
  intros Hwf Hc. destruct (wf_slice_array h f Hwf Hc) as (arr & Ha & _).
  by eapply lookup_lt_Some.
Qed.

Lemma set_last_set_last k k' l : set_last k (set_last k' l) = set_last k l.
Proof.
  unfold set_last. rewrite length_alter, list_alter_alter_eq.
  by apply list_alter_ext.
Qed.


Section Sharing.

Variable slack : nat → nat → nat.

(** Everything one [And]/[Or] call on a non-empty receiver does. *)
Lemma link_rich k f field operator value h l :
  wf_slice h f → read f h = Some l → 0 < len f →
  ∃ r h',
    link slack k f field operator value h = Some (r, h') ∧
    read r h' = Some (set_last k l ++ [Filter_lit field operator value]) ∧
    read f h' = Some (set_last k l) ∧
    wf_slice h' r ∧ wf_slice h' f ∧
    (∀ g, wf_slice h g → wf_slice h' g) ∧
    (∀ g, wf_slice h g → 0 < cap g → data g ≠ data f →
          read g h' = read g h) ∧
    (len f < cap f →
     r = mkFilters (data f) (off f) (len f + 1) (cap f) ∧
     length h' = length h) ∧
    (cap f = len f → data r = length h ∧ length h' = S (length h)).
Proof.
  intros Hwf Hl Hpos. pose proof (read_length _ _ _ Hl) as Hll.
  unfold link, Filters_IsZero. rewrite bool_decide_false by lia.
  unfold mbind, rt_bind. rewrite modify_alter by (done || lia).
  set (h1 := alter _ _ h).
  assert (grows [] h h1) as Hg1 by apply grows_key.
  assert (wf_slice h1 f) as Hwf1 by (eapply wf_slice_mono; [apply Hg1 | done]).
  assert (read f h1 = Some (set_last k l)) as Hl1.
  { unfold set_last. rewrite Hll. by apply read_alter_same; [| lia |]. }
  destruct (append_rich slack f [Filter_lit field operator value] h1
              (set_last k l) Hwf1 Hl1)
    as (r & h' & Hrun & Hr & Hf & Hwr & Hg & Hframe & Hin & Hout); [done |].
  assert (length h1 = length h) as Hlen1 by apply length_alter.
  exists r, h'. split_and!; try done.
  - eapply wf_slice_mono; [apply Hg | done].
  - intros g Hwg. eapply wf_slice_mono; [apply Hg |].
    eapply wf_slice_mono; [apply Hg1 | done].
  - intros g Hwg Hcg Hne. apply read_frame. intros _.
    rewrite Hframe; [by apply list_lookup_alter_ne | done |].
    rewrite Hlen1. by apply wf_slice_data_lt.
  - intros Hroom. destruct Hin as [-> Hlen]; [simpl; lia |].
    split; [done | congruence].
  - intros Hfull. destruct Hout as [Hd Hlen]; [simpl; lia |].
    split; congruence.
Qed.

End Sharing.

(** X1.  [And] and [Or] write through the receiver: after
    [b := a.And(..)] or [b := a.Or(..)] on a non-empty [a], the caller's
    own [a] reads as before except that its last element now carries the
    connective, whether or not the call had to reallocate. *)
Theorem And_Or_write_through_receiver (slack : nat → nat → nat)
    (h : heap) (f : Filters) (l : list Filter)
    (field : string) (operator : FilterOperator) (value : FilterValue) :
  wf_slice h f → read f h = Some l → l ≠ [] →
  (∃ r h',
     Filters_And slack f field operator value h = Some (r, h') ∧
     read f h' = Some (alter (set_ChainingKey And) (length l - 1) l)) ∧
  (∃ r h',
     Filters_Or slack f field operator value h = Some (r, h') ∧
     read f h' = Some (alter (set_ChainingKey Or) (length l - 1) l)).
Proof.
  intros Hwf Hl Hne. pose proof (read_length _ _ _ Hl) as Hll.
  assert (0 < len f) by (destruct l; [done | simpl in Hll; lia]).
  split.
  - rewrite Filters_And_link.
    destruct (link_rich slack And f field operator value h l Hwf Hl)
      as (r & h' & Hrun & _ & Hf & _); [done |]. by exists r, h'.
  - rewrite Filters_Or_link.
    destruct (link_rich slack Or f field operator value h l Hwf Hl)
      as (r & h' & Hrun & _ & Hf & _); [done |]. by exists r, h'.
Qed.

Lemma And_Or_write_through_receiver_witness :
  ∃ r h',
    Filters_Or doubling (mkFilters 0 0 1 1) "b" Op.Equal (VInt 2)
      [[Filter_lit "a" Op.Equal (VInt 1)]] = Some (r, h') ∧
    read (mkFilters 0 0 1 1) h'
      = Some [set_ChainingKey Or (Filter_lit "a" Op.Equal (VInt 1))].
Proof.
  destruct (And_Or_write_through_receiver doubling
              [[Filter_lit "a" Op.Equal (VInt 1)]] (mkFilters 0 0 1 1)
              [Filter_lit "a" Op.Equal (VInt 1)] "b" Op.Equal (VInt 2))
    as [_ HO].
  - split; [simpl; lia | right; simpl; lia].
  - reflexivity.
  - discriminate.
  - exact HO.
Defined.



(** X3.  Two branches from a receiver with spare capacity are one and the
    same slice: after [b1 := f.And(p); b2 := f.Or(q)], [b1] and [b2] are
    the same header, and both read as the receiver's elements with [OR] on
    the last, followed by [q]; the predicate [p] and the [AND] of the
    first branch are gone. *)
Theorem branches_share_when_room (slack : nat → nat → nat)
    (h : heap) (f : Filters) (l : list Filter)
    (field1 : string) (operator1 : FilterOperator) (value1 : FilterValue)
    (field2 : string) (operator2 : FilterOperator) (value2 : FilterValue) :
  wf_slice h f → read f h = Some l → 0 < len f → len f < cap f →
  ∃ b1 b2 h',
    branch slack f field1 operator1 value1 field2 operator2 value2 h
      = Some ((b1, b2), h') ∧
    b1 = b2 ∧
    read b1 h' = Some (alter (set_ChainingKey Or) (length l - 1) l
                       ++ [Filter_lit field2 operator2 value2]).
Proof.
  intros Hwf Hl Hpos Hroom. unfold branch.
  rewrite Filters_And_link, Filters_Or_link.
  destruct (link_rich slack And f field1 operator1 value1 h l Hwf Hl Hpos)
    as (b1 & h1 & Hrun1 & _ & Hf1 & _ & Hwf1 & _ & _ & Hin1 & _).
  destruct (Hin1 Hroom) as [-> _].
  destruct (link_rich slack Or f field2 operator2 value2 h1 _ Hwf1 Hf1 Hpos)
    as (b2 & h2 & Hrun2 & Hr2 & _ & _ & _ & _ & _ & Hin2 & _).
  destruct (Hin2 Hroom) as [-> _].
  eexists _, _, h2. split_and!.
  - unfold mbind, rt_bind. rewrite Hrun1, Hrun2. reflexivity.
  - done.
  - rewrite Hr2, set_last_set_last. done.
Qed.

Lemma branches_share_when_room_witness :
  ∃ b1 b2 h',
    branch doubling (mkFilters 0 0 1 2)
      "p" Op.Equal (VInt 2) "q" Op.Equal (VInt 3)
      [[Filter_lit "a" Op.Equal (VInt 1); Filter_zero]]
      = Some ((b1, b2), h') ∧
    b1 = b2 ∧
    read b1 h' = Some [set_ChainingKey Or (Filter_lit "a" Op.Equal (VInt 1));
                       Filter_lit "q" Op.Equal (VInt 3)].
Proof.
  apply (branches_share_when_room doubling
           [[Filter_lit "a" Op.Equal (VInt 1); Filter_zero]]
           (mkFilters 0 0 1 2) [Filter_lit "a" Op.Equal (VInt 1)]).
  - split; [simpl; lia | right; simpl; lia].
  - reflexivity.
  - simpl. lia.
  - simpl. lia.
Defined.

(** X4.  Two branches from a non-empty receiver without spare capacity
    are independent: after [b1 := f.And(p); b2 := f.Or(q)], [b1] reads as
    the receiver's elements with [AND] on the last followed by [p], and
    [b2] as the same elements with [OR] on the last followed by [q]. *)
Theorem branches_independent_when_full (slack : nat → nat → nat)
    (h : heap) (f : Filters) (l : list Filter)
    (field1 : string) (operator1 : FilterOperator) (value1 : FilterValue)
    (field2 : string) (operator2 : FilterOperator) (value2 : FilterValue) :
  wf_slice h f → read f h = Some l → 0 < len f → cap f = len f →
  ∃ b1 b2 h',
    branch slack f field1 operator1 value1 field2 operator2 value2 h
      = Some ((b1, b2), h') ∧
    read b1 h' = Some (alter (set_ChainingKey And) (length l - 1) l
                       ++ [Filter_lit field1 operator1 value1]) ∧
    read b2 h' = Some (alter (set_ChainingKey Or) (length l - 1) l
                       ++ [Filter_lit field2 operator2 value2]).
Proof.
  intros Hwf Hl Hpos Hfull. unfold branch.
  rewrite Filters_And_link, Filters_Or_link.
  destruct (link_rich slack And f field1 operator1 value1 h l Hwf Hl Hpos)
    as (b1 & h1 & Hrun1 & Hr1 & Hf1 & Hwb1 & Hwf1 & _ & _ & _ & Hout1).
  destruct (Hout1 Hfull) as [Hd1 Hlen1].
  destruct (link_rich slack Or f field2 operator2 value2 h1 _ Hwf1 Hf1 Hpos)
    as (b2 & h2 & Hrun2 & Hr2 & _ & _ & _ & _ & Hframe & _).
  exists b1, b2, h2. split_and!.
  - unfold mbind, rt_bind. rewrite Hrun1, Hrun2. reflexivity.
  - etrans; [| exact Hr1]. apply Hframe; [done | |].
    + apply read_length in Hr1. rewrite length_app in Hr1. simpl in Hr1.
      destruct Hwb1. lia.
    + rewrite Hd1. pose proof (wf_slice_data_lt h f Hwf). lia.
  - rewrite Hr2, set_last_set_last. done.
Qed.

Lemma branches_independent_when_full_witness :
  ∃ b1 b2 h',
    branch doubling (mkFilters 0 0 1 1)
      "p" Op.Equal (VInt 2) "q" Op.Equal (VInt 3)
      [[Filter_lit "a" Op.Equal (VInt 1)]] = Some ((b1, b2), h') ∧
    read b1 h' = Some [set_ChainingKey And (Filter_lit "a" Op.Equal (VInt 1));
                       Filter_lit "p" Op.Equal (VInt 2)] ∧
    read b2 h' = Some [set_ChainingKey Or (Filter_lit "a" Op.Equal (VInt 1));
                       Filter_lit "q" Op.Equal (VInt 3)].
Proof.
  apply (branches_independent_when_full doubling
           [[Filter_lit "a" Op.Equal (VInt 1)]]
           (mkFilters 0 0 1 1) [Filter_lit "a" Op.Equal (VInt 1)]).
  - split; [simpl; lia | right; simpl; lia].
  - reflexivity.
  - simpl. lia.
  - reflexivity.
Defined.

(** ** What the group methods do to their two slices *)

Section GroupSharing.

Variable slack : nat → nat → nat.

Lemma link_group_rich k f g h l xs :
  wf_slice h f → wf_slice h g →
  read f h = Some l → read g h = Some xs →
  0 < len g → data g ≠ data f →
  ∃ r h',
    link_group slack k f g h = Some (r, h') ∧
    read r h' = Some (set_last k l ++ mark_group xs) ∧
    read g h' = Some (mark_group xs) ∧
    read f h' = Some (set_last k l).
Proof.
  intros Hwf Hwg Hrf Hrg Hpos Hne.
  pose proof (read_length _ _ _ Hrf) as Hlf.
  pose proof (read_length _ _ _ Hrg) as Hlg.
  assert (0 < cap g) as Hcg by (destruct Hwg; lia).
  unfold link_group. rewrite bool_decide_false by lia.
  unfold mbind at 1, rt_bind at 1.
  set (h1 := if decide (0 < len f)
             then alter (alter (set_ChainingKey k) (off f + (len f - 1)))
                    (data f) h
             else h).
  assert ((if bool_decide (0 < len f)
           then modify f (len f - 1) (set_ChainingKey k)
           else mret ()) h = Some ((), h1)) as ->.
  { unfold h1. case_bool_decide.
    - rewrite decide_True by done. apply modify_alter; [done | lia].
    - by rewrite decide_False by done. }
  assert (grows [] h h1) as Hg1.
  { unfold h1. case_decide; [apply grows_key | apply grows_refl]. }
  assert (read f h1 = Some (set_last k l)) as Hrf1.
  { unfold h1. case_decide.
    - unfold set_last. rewrite Hlf. by apply read_alter_same; [| lia |].
    - destruct l; [done | simpl in Hlf; lia]. }
  assert (read g h1 = Some xs) as Hrg1.
  { unfold h1. case_decide; [| done].
    rewrite read_alter_other; [done | auto]. }
  assert (wf_slice h1 f) as Hwf1 by (eapply wf_slice_mono; [apply Hg1 | done]).
  assert (wf_slice h1 g) as Hwg1 by (eapply wf_slice_mono; [apply Hg1 | done]).
  unfold mbind at 1, rt_bind at 1. rewrite modify_alter by (done || lia).
  set (h2 := alter _ _ h1).
  assert (grows [] h1 h2) as Hg2 by apply grows_open.
  assert (wf_slice h2 g) as Hwg2 by (eapply wf_slice_mono; [apply Hg2 | done]).
  assert (read g h2 = Some (alter (set_IsGroupOpen true) 0 xs)) as Hrg2.
  { by apply read_alter_same; [| lia |]. }
  unfold mbind at 1, rt_bind at 1. rewrite modify_alter by (done || lia).
  set (h3 := alter _ _ h2).
  assert (grows [] h2 h3) as Hg3 by apply grows_close.
  assert (wf_slice h3 g) as Hwg3 by (eapply wf_slice_mono; [apply Hg3 | done]).
  assert (read g h3 = Some (mark_group xs)) as Hrg3.
  { unfold mark_group. rewrite Hlg. by apply read_alter_same; [| lia |]. }
  assert (wf_slice h3 f) as Hwf3.
  { eapply wf_slice_mono; [apply Hg3 |].
    eapply wf_slice_mono; [apply Hg2 | done]. }
  assert (read f h3 = Some (set_last k l)) as Hrf3.
  { unfold h3, h2. rewrite !read_alter_other by auto. done. }
  unfold mbind at 1, rt_bind at 1, read_all. rewrite Hrg3. simpl.
  assert (mark_group xs ≠ []) as Hmne.
  { intros E. apply (f_equal length) in E.
    rewrite mark_group_length in E. simpl in E. lia. }
  destruct (append_rich slack f (mark_group xs) h3 _ Hwf3 Hrf3 Hmne)
    as (r & h' & Hrun & Hr & Hf & _ & _ & Hframe & _).
  exists r, h'. split_and!; try done.
  rewrite <- Hrg3. apply read_frame. intros _.
  apply Hframe; [done |]. by apply wf_slice_data_lt.
Qed.

End GroupSharing.

(** X5.  [AndGroup] and [OrGroup] write through their argument slice:
    after [f.AndGroup(g...)] or [f.OrGroup(g...)] with a non-empty [g] over
    another array than the receiver's, the caller's own [g] has its first
    element flagged group-open and its last one group-close, and the
    caller's own [f] has the connective on its last element. *)
Theorem groups_write_through_argument (slack : nat → nat → nat)
    (h : heap) (f g : Filters) (l xs : list Filter) :
  wf_slice h f → wf_slice h g →
  read f h = Some l → read g h = Some xs →
  xs ≠ [] → data g ≠ data f →
  (∃ r h',
     Filters_AndGroup slack f g h = Some (r, h') ∧
     read g h' = Some (alter (set_IsGroupClose true) (length xs - 1)
                         (alter (set_IsGroupOpen true) 0 xs)) ∧
     read f h' = Some (alter (set_ChainingKey And) (length l - 1) l)) ∧
  (∃ r h',
     Filters_OrGroup slack f g h = Some (r, h') ∧
     read g h' = Some (alter (set_IsGroupClose true) (length xs - 1)
                         (alter (set_IsGroupOpen true) 0 xs)) ∧
     read f h' = Some (alter (set_ChainingKey Or) (length l - 1) l)).
Proof.
  intros Hwf Hwg Hl Hxs Hne Hdisj.
  pose proof (read_length _ _ _ Hxs) as Hlx.
  assert (0 < len g) by (destruct xs; [done | simpl in Hlx; lia]).
  split.
  - rewrite Filters_AndGroup_link.
    destruct (link_group_rich slack And f g h l xs)
      as (r & h' & Hrun & _ & Hg & Hf); try done. by exists r, h'.
  - rewrite Filters_OrGroup_link.
    destruct (link_group_rich slack Or f g h l xs)
      as (r & h' & Hrun & _ & Hg & Hf); try done. by exists r, h'.
Qed.

Lemma groups_write_through_argument_witness :
  ∃ r h',
    Filters_AndGroup doubling (mkFilters 0 0 1 1) (mkFilters 1 0 2 2)
      [[Filter_lit "a" Op.Equal (VInt 1)];
       [Filter_lit "b" Op.Equal (VInt 2); Filter_lit "c" Op.Equal (VInt 3)]]
      = Some (r, h') ∧
    read (mkFilters 1 0 2 2) h'
      = Some [set_IsGroupOpen true (Filter_lit "b" Op.Equal (VInt 2));
              set_IsGroupClose true (Filter_lit "c" Op.Equal (VInt 3))] ∧
    read (mkFilters 0 0 1 1) h'
      = Some [set_ChainingKey And (Filter_lit "a" Op.Equal (VInt 1))].
Proof.
  destruct (groups_write_through_argument doubling
              [[Filter_lit "a" Op.Equal (VInt 1)];
               [Filter_lit "b" Op.Equal (VInt 2);
                Filter_lit "c" Op.Equal (VInt 3)]]
              (mkFilters 0 0 1 1) (mkFilters 1 0 2 2)
              [Filter_lit "a" Op.Equal (VInt 1)]
              [Filter_lit "b" Op.Equal (VInt 2);
               Filter_lit "c" Op.Equal (VInt 3)]) as [HA _].
  - split; [simpl; lia | right; simpl; lia].
  - split; [simpl; lia | right; simpl; lia].
  - reflexivity.
  - reflexivity.
  - discriminate.
  - simpl. lia.
  - exact HA.
Defined.

(** ** Chains: connectives, order and length *)

Lemma keys_set_last k l ks k0 :
  ChainingKey <$> l = ks ++ [k0] → ChainingKey <$> set_last k l = ks ++ [k].
Proof.
  intros Hk. unfold set_last.
  rewrite (list_fmap_alter ChainingKey (set_ChainingKey k) (λ _, k))
    by by apply Forall_true.
  assert (length l = length ks + 1) as ->.
  { rewrite <- (length_fmap ChainingKey l), Hk, length_app. simpl. lia. }
  rewrite Hk. replace (length ks + 1 - 1) with (length ks + 0) by lia.
  by rewrite alter_app_r.
Qed.

Lemma keys_chain_elems cs l ks k0 :
  forallb is_single cs = true → ChainingKey <$> l = ks ++ [k0] →
  ChainingKey <$> chain_elems cs l =
    match cs with
    | [] => ks ++ [k0]
    | _ => ks ++ (connective <$> cs) ++ [""]
    end.
Proof.
  revert l ks k0. induction cs as [| c cs IH]; intros l ks k0 Hs Hk; [done |].
  simpl in Hs. apply andb_true_iff in Hs as [Hc Hs].
  assert (ChainingKey <$> invoke_elems c l = (ks ++ [connective c]) ++ [""])
    as Hk1.
  { destruct c as [n o v | n o v | args | args]; try done; simpl;
      rewrite fmap_app; f_equal; by eapply keys_set_last. }
  simpl. rewrite (IH _ _ _ Hs Hk1).
  destruct cs; simpl; by rewrite <- !app_assoc.
Qed.

Lemma flags_chain_elems cs l :
  forallb is_single cs = true →
  Forall (λ x, IsGroupOpen x = false ∧ IsGroupClose x = false) l →
  Forall (λ x, IsGroupOpen x = false ∧ IsGroupClose x = false)
    (chain_elems cs l).
Proof.
  revert l. induction cs as [| c cs IH]; intros l Hs Hl; [done |].
  simpl in Hs. apply andb_true_iff in Hs as [Hc Hs].
  simpl. apply IH; [done |].
  destruct c as [n o v | n o v | args | args]; try done; simpl;
    (apply Forall_app; split; [| by repeat constructor]);
    (apply Forall_alter; [done | by intros x _ Hx]).
Qed.

(** X6.  In a sequence built by [FilterBy] followed by [And] and [Or]
    calls only, every element but the last carries the connective of the
    call that appended its successor, the last element carries none, and
    no element has a group flag. *)
Theorem single_chain_connectives (slack : nat → nat → nat) (cs : list call)
    (h0 : heap) (name : string) (operator : FilterOperator)
    (value : FilterValue) :
  forallb is_single cs = true →
  ∃ r h l,
    (a ← FilterBy name operator value; chain slack cs a) h0 = Some (r, h) ∧
    read r h = Some l ∧
    ChainingKey <$> l = (connective <$> cs) ++ [""] ∧
    Forall (λ x, IsGroupOpen x = false ∧ IsGroupClose x = false) l.
Proof.
  intros Hs.
  assert (spec (a ← FilterBy name operator value; chain slack cs a) h0
            (λ r h, read r h
                    = Some (chain_elems cs [Filter_lit name operator value])))
    as (r & h & Hrun & Hr).
  { apply spec_bind, spec_FilterBy. intros a h1 Ha Hwa _ _ _.
    eapply spec_mono; [| by apply chain_spec]. by intros r h [Hr _]. }
  exists r, h, (chain_elems cs [Filter_lit name operator value]).
  split_and!; [done | done | |].
  - rewrite (keys_chain_elems cs _ [] "" Hs) by done. by destruct cs.
  - apply flags_chain_elems; [done |]. by repeat constructor.
Qed.

Lemma single_chain_connectives_witness :
  ∃ r h l,
    (a ← FilterBy "a" Op.Equal (VInt 1);
     chain doubling [CAnd "b" Op.Greater (VInt 2);
                     COr "c" Op.Less (VInt 3);
                     CAnd "d" Op.Like (VString "x")] a) [] = Some (r, h) ∧
    read r h = Some l ∧
    ChainingKey <$> l = [And; Or; And; ""].
Proof.
  destruct (single_chain_connectives doubling
              [CAnd "b" Op.Greater (VInt 2); COr "c" Op.Less (VInt 3);
               CAnd "d" Op.Like (VString "x")] [] "a" Op.Equal (VInt 1))
    as (r & h & l & Hrun & Hl & Hk & _).
  - reflexivity.
  - exists r, h, l. split; [exact Hrun |]. split; [exact Hl | exact Hk].
Defined.

Lemma unmarked_alter (f : Filter → Filter) (i : nat) (l : list Filter) :
  (∀ x, unmarked (f x) = unmarked x) →
  unmarked <$> alter f i l = unmarked <$> l.
Proof.
  intros Hf.
  rewrite (list_fmap_alter unmarked f id) by by apply Forall_true.
  by apply list_alter_id.
Qed.

Lemma unmarked_invoke_elems c l :
  unmarked <$> invoke_elems c l
  = (unmarked <$> l) ++ (unmarked <$> call_items c).
Proof.
  destruct c as [n o v | n o v | args | args]; simpl.
  - rewrite fmap_app. f_equal. by apply unmarked_alter.
  - rewrite fmap_app. f_equal. by apply unmarked_alter.
  - destruct args as [| a args']; [by rewrite app_nil_r |].
    unfold grouped, set_last, mark_group. rewrite fmap_app.
    by rewrite !unmarked_alter.
  - destruct args as [| a args']; [by rewrite app_nil_r |].
    unfold grouped, set_last, mark_group. rewrite fmap_app.
    by rewrite !unmarked_alter.
Qed.

Lemma unmarked_chain_elems cs l :
  unmarked <$> chain_elems cs l
  = (unmarked <$> l) ++ (unmarked <$> (cs ≫= call_items)).
Proof.
  revert l. induction cs as [| c cs IH]; intros l; simpl.
  - by rewrite app_nil_r.
  - rewrite IH, unmarked_invoke_elems, <- app_assoc. f_equal.
    by rewrite fmap_app.
Qed.

(** X7.  The builder is append-only.  A chain of calls on any receiver
    returns the receiver's elements followed by the elements of the calls
    in call order, none dropped, repeated or moved, and each of them
    unchanged in every field but the chaining key and the two group flags;
    the result is as long as the receiver and the supplied elements
    together. *)
Theorem chain_is_append_only (slack : nat → nat → nat) (cs : list call)
    (h : heap) (f : Filters) (l : list Filter) :
  wf_slice h f → read f h = Some l →
  ∃ r h' l',
    chain slack cs f h = Some (r, h') ∧ read r h' = Some l' ∧
    unmarked <$> l' = unmarked <$> (l ++ (cs ≫= call_items)) ∧
    len r = len f + length (cs ≫= call_items).
Proof.
  intros Hwf Hl.
  destruct (chain_spec slack cs f h l Hwf Hl) as (r & h' & Hrun & Hr & _).
  exists r, h', (chain_elems cs l). split_and!; [done | done | |].
  - by rewrite unmarked_chain_elems, fmap_app.
  - apply read_length in Hr. apply read_length in Hl.
    rewrite <- Hr, <- Hl.
    rewrite <- (length_fmap unmarked (chain_elems cs l)).
    rewrite unmarked_chain_elems, length_app, !length_fmap. done.
Qed.

Lemma chain_is_append_only_witness :
  ∃ r h' l',
    chain doubling
      [COr "b" Op.Equal (VInt 2);
       CAndGroup [Filter_lit "c" Op.Equal (VInt 3);
                  Filter_lit "d" Op.Equal (VInt 4)]]
      (mkFilters 0 0 1 1) [[Filter_lit "a" Op.Equal (VInt 1)]]
      = Some (r, h') ∧
    read r h' = Some l' ∧
    unmarked <$> l' = [Filter_lit "a" Op.Equal (VInt 1);
                       Filter_lit "b" Op.Equal (VInt 2);
                       Filter_lit "c" Op.Equal (VInt 3);
                       Filter_lit "d" Op.Equal (VInt 4)] ∧
    len r = 1 + 3.
Proof.
  apply (chain_is_append_only doubling
           [COr "b" Op.Equal (VInt 2);
            CAndGroup [Filter_lit "c" Op.Equal (VInt 3);
                       Filter_lit "d" Op.Equal (VInt 4)]]
           [[Filter_lit "a" Op.Equal (VInt 1)]] (mkFilters 0 0 1 1)
           [Filter_lit "a" Op.Equal (VInt 1)]).
  - split; [simpl; lia | right; simpl; lia].
  - reflexivity.
Defined.

(** ** The fluent methods of Criteria *)

Lemma other_calls_with_Filters ms c f :
  other_calls ms (with_Filters c f) = with_Filters (other_calls ms c) f.
Proof.
  revert c. induction ms as [| m ms IH]; intros c; [done |].
  simpl. rewrite <- IH. by destruct m.
Qed.


Lemma fluently_split slack ms c h :
  fluently slack ms c h
  = (f ← chain slack (filter_calls ms) (Criteria_Filters c);
     mret (with_Filters (other_calls ms c) f)) h.
Proof.
  revert c h. induction ms as [| m ms IH]; intros c h.
  - simpl. by destruct c.
  - destruct m as [n o v | n o v | args | args | value | value | columns];
      simpl; unfold mbind, rt_bind.
    + unfold Criteria_And, mbind, rt_bind.
      destruct (Filters_And slack (Criteria_Filters c) n o v h)
        as [[f1 h1] |]; [| done]. simpl.
      rewrite IH. unfold mbind, rt_bind. simpl.
      destruct (chain slack _ f1 h1) as [[f2 h2] |]; [| done].
      simpl. by rewrite other_calls_with_Filters.
    + unfold Criteria_Or, mbind, rt_bind.
      destruct (Filters_Or slack (Criteria_Filters c) n o v h)
        as [[f1 h1] |]; [| done]. simpl.
      rewrite IH. unfold mbind, rt_bind. simpl.
      destruct (chain slack _ f1 h1) as [[f2 h2] |]; [| done].
      simpl. by rewrite other_calls_with_Filters.
    + unfold call_Criteria_AndGroup, call_AndGroup, Criteria_AndGroup,
        mbind, rt_bind.
      destruct (variadic args h) as [[g h0] |]; [| done].
      destruct (Filters_AndGroup slack (Criteria_Filters c) g h0)
        as [[f1 h1] |]; [| done]. simpl.
      rewrite IH. unfold mbind, rt_bind. simpl.
      destruct (chain slack _ f1 h1) as [[f2 h2] |]; [| done].
      simpl. by rewrite other_calls_with_Filters.
    + unfold call_Criteria_OrGroup, call_OrGroup, Criteria_OrGroup,
        mbind, rt_bind.
      destruct (variadic args h) as [[g h0] |]; [| done].
      destruct (Filters_OrGroup slack (Criteria_Filters c) g h0)
        as [[f1 h1] |]; [| done]. simpl.
      rewrite IH. unfold mbind, rt_bind. simpl.
      destruct (chain slack _ f1 h1) as [[f2 h2] |]; [| done].
      simpl. by rewrite other_calls_with_Filters.
    + unfold mret, rt_ret. rewrite IH. by destruct c.
    + unfold mret, rt_ret. rewrite IH. by destruct c.
    + unfold mret, rt_ret. rewrite IH. by destruct c.
Qed.

(** X8.  A fluent chain on a Criteria value splits into two independent
    parts: its [And], [Or], [AndGroup] and [OrGroup] calls act on the
    filter sequence exactly as the same calls on [Filters] would, and its
    [Limit], [Page] and [Select] calls set their fields as if the filter
    calls were not there.  So the two kinds of call can be interleaved in
    any way without changing the result. *)
Theorem fluent_chain_splits (slack : nat → nat → nat) (ms : list fluent)
    (c : Criteria) (h : heap) :
  fluently slack ms c h
  = (f ← chain slack (filter_calls ms) (Criteria_Filters c);
     mret (with_Filters (other_calls ms c) f)) h ∧
  ∀ ms',
    filter_calls ms' = filter_calls ms →
    (∀ c0, other_calls ms' c0 = other_calls ms c0) →
    fluently slack ms' c h = fluently slack ms c h.
Proof.
  split; [apply fluently_split |].
  intros ms' Hf Ho. by rewrite !fluently_split, Hf, Ho.
Qed.

Lemma fluent_chain_splits_witness :
  fluently doubling
    [FLimit 10; FAnd "a" Op.Equal (VInt 1); FSelect ["x"];
     FOr "b" Op.Equal (VInt 2)] New []
  = fluently doubling
      [FAnd "a" Op.Equal (VInt 1); FOr "b" Op.Equal (VInt 2);
       FSelect ["x"]; FLimit 10] New [].
Proof.
  destruct (fluent_chain_splits doubling
              [FAnd "a" Op.Equal (VInt 1); FOr "b" Op.Equal (VInt 2);
               FSelect ["x"]; FLimit 10] New []) as [_ H].
  apply H.
  - reflexivity.
  - intros c0. reflexivity.
Defined.



(** X10.  [Where(field, operator, value)] is [New().And(field, operator,
    value)] and [New().Or(field, operator, value)]: the same value and the
    same store. *)
Theorem Where_is_New_And (slack : nat → nat → nat) (field : string)
    (operator : FilterOperator) (value : FilterValue) (h : heap) :
  Where field operator value h = Criteria_And slack New field operator value h ∧
  Where field operator value h = Criteria_Or slack New field operator value h.
Proof. by split. Qed.

(** X11.  [Limit] and [Page] set one pagination field each and nothing
    else: they commute, the last call of each wins, and the value keeps the
    unset reading of zero, so that [HasPageSize] holds after [Limit(n)]
    exactly when [n > 0] and [HasPageNumber] after [Page(m)] exactly when
    [m > 0], whatever the other field is. *)
Theorem Limit_and_Page_are_independent (c : Criteria) (n n' m m' : N) :
  Criteria_Page (Criteria_Limit c n) m = Criteria_Limit (Criteria_Page c m) n ∧
  Criteria_Limit (Criteria_Limit c n) n' = Criteria_Limit c n' ∧
  Criteria_Page (Criteria_Page c m) m' = Criteria_Page c m' ∧
  (Pagination_HasPageSize (Criteria_Pagination (Criteria_Limit c n)) = true
   ↔ (0 < n)%N) ∧
  (Pagination_HasPageNumber (Criteria_Pagination (Criteria_Page c m)) = true
   ↔ (0 < m)%N) ∧
  Pagination_HasPageNumber (Criteria_Pagination (Criteria_Limit c n))
  = Pagination_HasPageNumber (Criteria_Pagination c) ∧
  Pagination_HasPageSize (Criteria_Pagination (Criteria_Page c m))
  = Pagination_HasPageSize (Criteria_Pagination c) ∧
  (Pagination_IsZero
     (Criteria_Pagination (Criteria_Page (Criteria_Limit c n) m)) = true
   ↔ n = 0%N ∧ m = 0%N).
Proof.
  split_and!; try done.
  - unfold Pagination_HasPageSize. simpl. apply N.ltb_lt.
  - unfold Pagination_HasPageNumber. simpl. apply N.ltb_lt.
  - unfold Pagination_IsZero. simpl.
    rewrite andb_true_iff, !N.eqb_eq. tauto.
Qed.

(** ** Generic lists: [Filter], [Find], [MustFind] *)

Section ListProperties.

Context {T : Type}.
Variable zero : T.

Lemma Filter_loop_acc (iter : ListIterator) k (res l : list T) :
  Filter_loop iter k res l = res ++ Filter_loop iter k [] l.
Proof.
  revert k res. induction l as [| v l IH]; intros k res; simpl.
  - by rewrite app_nil_r.
  - rewrite (IH (S k) (if iter k v then res ++ [v] else res)).
    rewrite (IH (S k) (if iter k v then [v] else [])).
    destruct (iter k v); simpl; [by rewrite <- app_assoc | done].
Qed.

Lemma Filter_loop_cons (iter : ListIterator) k v (l : list T) :
  Filter_loop iter k [] (v :: l)
  = (if iter k v then [v] else []) ++ Filter_loop iter (S k) [] l.
Proof. simpl. rewrite Filter_loop_acc. by destruct (iter k v). Qed.

Lemma Filter_loop_elem (iter : ListIterator) k (l : list T) v :
  v ∈ Filter_loop iter k [] l ↔ ∃ j, l !! j = Some v ∧ iter (k + j) v = true.
Proof.
  revert k. induction l as [| w l IH]; intros k.
  - simpl. split; [by intros ?%elem_of_nil | by intros (j & ? & _)].
  - rewrite Filter_loop_cons, elem_of_app, IH. split.
    + intros [Hv | (j & Hj & Hi)].
      * destruct (iter k w) eqn:E; [| by apply elem_of_nil in Hv].
        apply list_elem_of_singleton in Hv as ->. exists 0.
        by rewrite Nat.add_0_r.
      * exists (S j). split; [done |]. by rewrite <- Nat.add_succ_comm.
    + intros ([| j] & Hj & Hi).
      * left. simpl in Hj. injection Hj as ->.
        rewrite Nat.add_0_r in Hi. rewrite Hi. by apply list_elem_of_singleton.
      * right. exists j. split; [done |]. by rewrite Nat.add_succ_comm.
Qed.

Lemma Filter_loop_sublist (iter : ListIterator) k (l : list T) :
  Filter_loop iter k [] l `sublist_of` l.
Proof.
  revert k. induction l as [| w l IH]; intros k; [done |].
  rewrite Filter_loop_cons. destruct (iter k w); simpl.
  - by apply sublist_skip.
  - by apply sublist_cons.
Qed.

Lemma Filter_loop_plain (p : T → bool) k (l : list T) :
  Filter_loop (λ _ v, p v) k [] l = List.filter p l.
Proof.
  revert k. induction l as [| w l IH]; intros k; [done |].
  rewrite Filter_loop_cons, IH. simpl. by destruct (p w).
Qed.

Lemma Find_loop_Filter_loop (iter : ListIterator) k (l : list T) :
  Find_loop zero iter k l
  = match Filter_loop iter k [] l with
    | v :: _ => (v, true)
    | [] => (zero, false)
    end.
Proof.
  revert k. induction l as [| w l IH]; intros k; [done |].
  rewrite Filter_loop_cons. simpl. destruct (iter k w); [done | apply IH].
Qed.

Lemma Find_loop_first (iter : ListIterator) k (l : list T) :
  match Find_loop zero iter k l with
  | (x, true) =>
      ∃ j, l !! j = Some x ∧ iter (k + j) x = true ∧
           ∀ i w, i < j → l !! i = Some w → iter (k + i) w = false
  | (x, false) =>
      x = zero ∧ ∀ i w, l !! i = Some w → iter (k + i) w = false
  end.
Proof.
  revert k. induction l as [| v l IH]; intros k; simpl.
  - split; [done |]. by intros i w.
  - destruct (iter k v) eqn:E.
    + exists 0. rewrite Nat.add_0_r. split_and!; [done | done |]. lia.
    + specialize (IH (S k)).
      destruct (Find_loop zero iter (S k) l) as [x [|]].
      * destruct IH as (j & Hj & Hi & Hfirst). exists (S j).
        split_and!; [done | by rewrite <- Nat.add_succ_comm |].
        intros [| i] w Hlt Hw.
        -- simpl in Hw. injection Hw as <-. by rewrite Nat.add_0_r.
        -- rewrite <- Nat.add_succ_comm. apply Hfirst; [lia | done].
      * destruct IH as [-> Hnone]. split; [done |].
        intros [| i] w Hw.
        -- simpl in Hw. injection Hw as <-. by rewrite Nat.add_0_r.
        -- rewrite <- Nat.add_succ_comm. by apply Hnone.
Qed.

Lemma MustFind_loop_Find_loop (iter : ListIterator) k (l : list T) :
  MustFind_loop zero iter k l = (Find_loop zero iter k l).1.
Proof.
  revert k. induction l as [| v l IH]; intros k; [done |].
  simpl. destruct (iter k v); [done | apply IH].
Qed.

End ListProperties.

(** X12.  [List.Filter] returns, in their order in the list, exactly the
    elements [v] that stand at a position [k] with [iter(k, v)] true: the
    result is a sublist of the list, and a value is in it exactly when it
    is accepted at one of its positions. *)
Theorem List_Filter_selects {T : Type} (l : list T) (iter : ListIterator) :
  List_Filter l iter `sublist_of` l ∧
  length (List_Filter l iter) ≤ length l ∧
  ∀ v, v ∈ List_Filter l iter ↔ ∃ k, l !! k = Some v ∧ iter k v = true.
Proof.
  unfold List_Filter. split_and!.
  - apply Filter_loop_sublist.
  - apply sublist_length, Filter_loop_sublist.
  - intros v. apply (Filter_loop_elem iter 0).
Qed.

(** X13.  With a predicate that ignores the position, [List.Filter] is the
    ordinary filter: filtering twice is filtering once, accepting
    everything returns the list and accepting nothing the empty list. *)
Theorem List_Filter_plain {T : Type} (l : list T) (p : T → bool) :
  List_Filter l (λ _ v, p v) = List.filter p l ∧
  List_Filter (List_Filter l (λ _ v, p v)) (λ _ v, p v)
  = List_Filter l (λ _ v, p v) ∧
  List_Filter l (λ _ _, true) = l ∧
  List_Filter l (λ _ _, false) = [].
Proof.
  unfold List_Filter. rewrite !Filter_loop_plain. split_and!; [done | | |].
  - induction l as [| v l IH]; [done |]. simpl.
    destruct (p v) eqn:E; simpl; [by rewrite E, IH | done].
  - induction l as [| v l IH]; [done |]. simpl. by rewrite IH.
  - by induction l as [| v l IH].
Qed.

(** X14.  [List.Find] returns the first accepted element: when it reports
    success, its value stands at a position where [iter] accepts it and
    [iter] rejects every element before that position; when it reports
    failure, its value is the zero value and [iter] rejects every element.
    It is the head of [Filter]'s result, and it fails exactly when that
    result is empty. *)
Theorem List_Find_first_match {T : Type} (zero : T) (l : list T)
    (iter : ListIterator) :
  match List_Find zero l iter with
  | (x, true) =>
      ∃ k, l !! k = Some x ∧ iter k x = true ∧
           ∀ j w, j < k → l !! j = Some w → iter j w = false
  | (x, false) =>
      x = zero ∧ ∀ k w, l !! k = Some w → iter k w = false
  end ∧
  List_Find zero l iter
  = match List_Filter l iter with
    | v :: _ => (v, true)
    | [] => (zero, false)
    end ∧
  List_IsEmpty (List_Filter l iter) = negb (List_Find zero l iter).2.
Proof.
  unfold List_Find, List_Filter. split_and!.
  - apply (Find_loop_first zero iter 0 l).
  - apply Find_loop_Filter_loop.
  - rewrite Find_loop_Filter_loop.
    by destruct (Filter_loop iter 0 [] l).
Qed.

(** X15.  [List.MustFind] never panics: it returns what [Find] returns
    without the flag.  So it returns the zero value exactly when no element
    is accepted or the first accepted element is the zero value itself,
    and the two cases cannot be told apart from its result. *)
Theorem List_MustFind_is_Find_value {T : Type} (zero : T) (l : list T)
    (iter : ListIterator) :
  List_MustFind zero l iter = (List_Find zero l iter).1 ∧
  (List_MustFind zero l iter = zero ↔
   (∀ k w, l !! k = Some w → iter k w = false) ∨
   (∃ k, l !! k = Some zero ∧ iter k zero = true ∧
         ∀ j w, j < k → l !! j = Some w → iter j w = false)).
Proof.
  unfold List_MustFind, List_Find.
  rewrite MustFind_loop_Find_loop. split; [done |].
  pose proof (Find_loop_first zero iter 0 l) as H.
  destruct (Find_loop zero iter 0 l) as [x [|]]; simpl in *.
  - destruct H as (k & Hk & Hi & Hfirst). split.
    + intros ->. right. by exists k.
    + intros [Hnone | (k' & Hk' & Hi' & Hfirst')].
      * rewrite (Hnone k x Hk) in Hi. done.
      * destruct (Nat.lt_trichotomy k k') as [Hlt | [-> | Hlt]].
        -- rewrite (Hfirst' k x Hlt Hk) in Hi. done.
        -- congruence.
        -- rewrite (Hfirst k' zero Hlt Hk') in Hi'. done.
  - destruct H as [-> Hnone]. split; [by left | done].
Qed.

(** ** The application environment *)

Lemma GetEnvironment_cases environ :
  GetEnvironment environ =
    match environ !! "APP_ENV" with
    | Some v => if String.eqb v "" then "development" else v
    | None => "development"
    end.
Proof.
  unfold GetEnvironment, Getenv. by destruct (environ !! "APP_ENV").
Qed.

(** X16.  [GetEnvironment] never returns the empty string: it returns the
    value of [APP_ENV] when that is set and not empty, and ["development"]
    otherwise, so that an [APP_ENV] set to the empty string counts as not
    set; no other variable matters. *)
Theorem GetEnvironment_defaults (environ : gmap string string) :
  GetEnvironment environ ≠ "" ∧
  (∀ v, environ !! "APP_ENV" = Some v → v ≠ "" → GetEnvironment environ = v) ∧
  GetEnvironment (<["APP_ENV" := ""]> environ) = "development" ∧
  GetEnvironment (delete "APP_ENV" environ) = "development" ∧
  (∀ key v, key ≠ "APP_ENV" →
            GetEnvironment (<[key := v]> environ) = GetEnvironment environ).
Proof.
  split_and!.
  - rewrite GetEnvironment_cases.
    destruct (environ !! "APP_ENV") as [v |]; [| done].
    destruct (String.eqb v "") eqn:E; [done |]. by apply String.eqb_neq.
  - intros v Hv Hne. rewrite GetEnvironment_cases, Hv.
    apply String.eqb_neq in Hne. by rewrite Hne.
  - by rewrite GetEnvironment_cases, lookup_insert_eq.
  - by rewrite GetEnvironment_cases, lookup_delete_eq.
  - intros key v Hne. by rewrite !GetEnvironment_cases, lookup_insert_ne.
Qed.

Lemma GetEnvironment_defaults_witness :
  GetEnvironment {["APP_ENV" := "staging"]} = "staging" ∧
  GetEnvironment (<["HOME" := "/root"]> {["APP_ENV" := "staging"]})
  = GetEnvironment {["APP_ENV" := "staging"]}.
Proof.
  destruct (GetEnvironment_defaults {["APP_ENV" := "staging"]})
    as (_ & Hset & _ & _ & Hother).
  split.
  - apply Hset; [reflexivity | discriminate].
  - apply Hother. discriminate.
Defined.

(** X17.  [IsProduction] holds exactly when [APP_ENV] is set to
    ["production"], and [IsDevelopment] exactly when it is not set, set to
    the empty string or set to ["development"]; the comparison is exact, so
    for any other value, ["Production"] or ["staging"] say, both are false,
    and they are never both true. *)
Theorem IsProduction_IsDevelopment (environ : gmap string string) :
  (IsProduction environ = true ↔ environ !! "APP_ENV" = Some "production") ∧
  (IsDevelopment environ = true ↔
   environ !! "APP_ENV" = None ∨ environ !! "APP_ENV" = Some "" ∨
   environ !! "APP_ENV" = Some "development") ∧
  (IsProduction environ && IsDevelopment environ = false).
Proof.
  unfold IsProduction, IsDevelopment. rewrite GetEnvironment_cases.
  destruct (environ !! "APP_ENV") as [v |].
  - destruct (String.eqb v "") eqn:E.
    + apply String.eqb_eq in E as ->. split_and!; [| | done].
      * split; [done | by intros [= ?]].
      * split; [by right; left | done].
    + apply String.eqb_neq in E. split_and!.
      * rewrite String.eqb_eq. split; [by intros -> | by intros [= ->]].
      * rewrite String.eqb_eq. split; [intros ->; by right; right |].
        intros [? | [[= ->] | [= ->]]]; done.
      * destruct (String.eqb v "production") eqn:Ep; [| done].
        apply String.eqb_eq in Ep as ->. done.
  - split_and!; [| | done].
    + split; [done | by intros ?].
    + split; [by left | done].
Qed.

(** ** JSON-backed database values *)

(** X18.  [Object.Scan] accepts a [[]byte] or a [string] and nothing else:
    for every other kind of value it returns the "failed to unmarshal
    JSONB value" error and leaves the object as it was.  A string is
    scanned as its bytes, and scanning bytes does exactly what
    [UnmarshalJSON] does with them. *)
Theorem Object_Scan_accepts_bytes_and_strings {T E : Type}
    (json_Unmarshal : list Byte.byte → T → T * option E)
    (op : @Object T) :
  (∀ value,
     (∀ b, value ≠ DBytes b) → (∀ s, value ≠ DString s) →
     Object_Scan json_Unmarshal op value
     = (op, Some (Errorf "failed to unmarshal JSONB value: %v" value))) ∧
  (∀ b, Object_Scan json_Unmarshal op (DBytes b)
        = Object_UnmarshalJSON json_Unmarshal op b) ∧
  (∀ s, Object_Scan json_Unmarshal op (DString s)
        = Object_Scan json_Unmarshal op
            (DBytes (String.list_byte_of_string s))) ∧
  (∀ b, Object_Scan json_Unmarshal op (DString (String.string_of_list_byte b))
        = Object_Scan json_Unmarshal op (DBytes b)).
Proof.
  split_and!.
  - intros value Hb Hs. destruct value; try done.
    + by destruct (Hb b).
    + by destruct (Hs s).
  - done.
  - done.
  - intros b. unfold Object_Scan.
    by rewrite String.list_byte_of_string_of_list_byte.
Qed.

Lemma Object_Scan_accepts_bytes_and_strings_witness :
  Object_Scan (E := unit) (λ b (_ : list Byte.byte), (b, None))
    (NewObject []) (DInt64 123)
  = (NewObject [],
     Some (Errorf "failed to unmarshal JSONB value: %v" (DInt64 123))).
Proof.
  destruct (Object_Scan_accepts_bytes_and_strings (E := unit)
              (λ b (_ : list Byte.byte), (b, None)) (NewObject []))
    as [H _].
  apply H; discriminate.
Defined.

(** X19.  Round trip through the database and through JSON: when
    [json.Unmarshal] restores what [json.Marshal] wrote, whatever the
    destination held before, then scanning the bytes that [Value] returned
    for an object, as bytes or as a string, into any object succeeds and
    leaves the first object's data; [MarshalJSON] returns the same bytes
    as [Value], and [UnmarshalJSON] restores the data from them as
    well. *)
Theorem Object_Value_Scan_round_trip {T E : Type}
    (json_Marshal : T → E + list Byte.byte)
    (json_Unmarshal : list Byte.byte → T → T * option E)
    (d : T) (bytes : list Byte.byte) (op : @Object T) :
  (∀ v b dst, json_Marshal v = inr b → json_Unmarshal b dst = (v, None)) →
  Object_Value (E := E) json_Marshal (NewObject d) = inr bytes →
  Object_Scan json_Unmarshal op (DBytes bytes) = (NewObject d, None) ∧
  Object_Scan json_Unmarshal op (DString (String.string_of_list_byte bytes))
  = (NewObject d, None) ∧
  Object_Data (Object_Scan json_Unmarshal op (DBytes bytes)).1 = d ∧
  Object_MarshalJSON (E := E) json_Marshal (NewObject d) = inr bytes ∧
  Object_UnmarshalJSON json_Unmarshal op bytes = (NewObject d, None).
Proof.
  intros Hcodec Hval. unfold Object_MarshalJSON.
  unfold Object_Value in Hval. simpl in *.
  destruct (json_Marshal d) as [err | b] eqn:Hm; [done |].
  injection Hval as ->.
  unfold Object_Scan, Object_UnmarshalJSON.
  rewrite String.list_byte_of_string_of_list_byte.
  by rewrite (Hcodec d bytes (Object_data op) Hm).
Qed.

Lemma Object_Value_Scan_round_trip_witness :
  Object_Scan (E := unit) (λ b (_ : list Byte.byte), (b, None))
    (NewObject []) (DBytes [Byte.x7b; Byte.x7d])
  = (NewObject [Byte.x7b; Byte.x7d], None).
Proof.
  apply (Object_Value_Scan_round_trip (E := unit) (λ v, inr v)
           (λ b (_ : list Byte.byte), (b, None))
           [Byte.x7b; Byte.x7d] [Byte.x7b; Byte.x7d] (NewObject [])).
  - intros v b dst [= ->]. reflexivity.
  - reflexivity.
Defined.
